(** * External-links web crawler (web_crawler_app.py)

    A shallow embedding of the crawl core of [web_crawler_app.py]: the URL
    classifier ([should_skip_url], [is_valid_landing_page]), link extraction
    ([get_links]) and the work-list loop ([crawl_website]).

    A Python [str] is modelled by its UTF-8 encoding, a [string] of 8-bit
    characters: every test of the program and of [urlparse] is on ASCII
    characters, which the encoding keeps apart from the bytes of the others,
    and [str.lower] is needed on the letters of the skipped extensions only.
    The two mutable Python sets are [gset string]; the global list
    [external_links] is a list of pairs in append order.  [set.pop()]
    removes an arbitrary element, so the loop is a step relation with one
    step per element the pop may return, next to the function
    [crawl_website] that runs it for a given choice.  The site that is
    crawled and three library functions ([urljoin], the validation of a
    bracketed host and NFKC normalisation) are the fields of the class
    [World]; [urlparse] follows urllib.parse of CPython 3.11, and
    [raise_for_status] the requests library.  The [ValueError] that
    [urljoin] and [urlparse] raise on an invalid netloc is not caught by
    [get_links] or [crawl_website]: it ends the run, which is then
    [Aborted]. *)

From Stdlib Require Import Ascii String QArith.
From stdpp Require Import base option list gmap strings.

Local Open Scope char_scope.
Local Open Scope stdpp_scope.

(* String append unfolds on a constructor, as list append does. *)
Local Arguments String.append !_ _ / : simpl nomatch.

(** ** Python string operations *)

Module Str.

Definition is_upper (c : ascii) : bool :=
  let n := nat_of_ascii c in (65 <=? n)%nat && (n <=? 90)%nat.

Definition is_lower (c : ascii) : bool :=
  let n := nat_of_ascii c in (97 <=? n)%nat && (n <=? 122)%nat.

Definition is_digit (c : ascii) : bool :=
  let n := nat_of_ascii c in (48 <=? n)%nat && (n <=? 57)%nat.

(** [c.isascii() and c.isalpha()] *)
Definition is_alpha (c : ascii) : bool := is_upper c || is_lower c.

Definition char_lower (c : ascii) : ascii :=
  if is_upper c then ascii_of_nat (nat_of_ascii c + 32) else c.

(** [s.lower()] on the letters A to Z.  The bytes of a character outside
    ASCII are kept: its lower case is no suffix of a skipped extension. *)
Fixpoint lower (s : string) : string :=
  match s with
  | EmptyString => EmptyString
  | String c r => String (char_lower c) (lower r)
  end.

(** [s.startswith(p)] *)
Fixpoint startswith (s p : string) {struct p} : bool :=
  match p, s with
  | EmptyString, _ => true
  | String _ _, EmptyString => false
  | String a p', String b s' => Ascii.eqb a b && startswith s' p'
  end.

(** [p in s] *)
Fixpoint contains (s p : string) : bool :=
  startswith s p ||
  match s with
  | EmptyString => false
  | String _ s' => contains s' p
  end.

(** [s.endswith(e)]: some suffix of [s] is [e]. *)
Fixpoint endswith (s e : string) : bool :=
  String.eqb s e ||
  match s with
  | EmptyString => false
  | String _ s' => endswith s' e
  end.

(** [c in s] for a one-character [c]. *)
Fixpoint has_char (p : ascii -> bool) (s : string) : bool :=
  match s with
  | EmptyString => false
  | String c r => p c || has_char p r
  end.

(** [all(p(c) for c in s)] *)
Fixpoint all_chars (p : ascii -> bool) (s : string) : bool :=
  match s with
  | EmptyString => true
  | String c r => p c && all_chars p r
  end.

(** [s.isascii()] *)
Definition isascii (s : string) : bool :=
  all_chars (fun c => (nat_of_ascii c <? 128)%nat) s.

(** [s.lstrip(chars)], the set [chars] given by its membership test. *)
Fixpoint lstrip (p : ascii -> bool) (s : string) : string :=
  match s with
  | EmptyString => EmptyString
  | String c r => if p c then lstrip p r else s
  end.

(** [s.replace(b, "")] for every [b] of a set of characters. *)
Fixpoint remove (p : ascii -> bool) (s : string) : string :=
  match s with
  | EmptyString => EmptyString
  | String c r => if p c then remove p r else String c (remove p r)
  end.

(** With [i] the index of the first character of [s] that satisfies [p]
    (or [len(s)] when there is none): the pair [(s[:i], s[i:])]. *)
Fixpoint break (p : ascii -> bool) (s : string) : string * string :=
  match s with
  | EmptyString => (EmptyString, EmptyString)
  | String c r =>
      if p c then (EmptyString, s)
      else let '(a, b) := break p r in (String c a, b)
  end.

(** [c in s] together with [s.split(c, 1)]; equally [i = s.find(c)] with
    [s[:i]] and [s[i+1:]].  [None] when [c] does not occur. *)
Definition partition (c : ascii) (s : string) : option (string * string) :=
  match break (Ascii.eqb c) s with
  | (a, String _ b) => Some (a, b)
  | (_, EmptyString) => None
  end.

(** With [i = s.rfind(c)]: the pair [(s[:i], s[i:])], [None] when [c] does
    not occur ([i = -1]). *)
Fixpoint rbreak (c : ascii) (s : string) : option (string * string) :=
  match s with
  | EmptyString => None
  | String x r =>
      match rbreak c r with
      | Some (a, b) => Some (String x a, b)
      | None => if Ascii.eqb x c then Some (EmptyString, s) else None
      end
  end.

(** [s[:-1]] *)
Fixpoint init (s : string) : string :=
  match s with
  | EmptyString => EmptyString
  | String _ EmptyString => EmptyString
  | String c r => String c (init r)
  end.

Definition one_of (chars : string) (c : ascii) : bool :=
  has_char (Ascii.eqb c) chars.

End Str.

(** ** urllib.parse.urlparse *)

Record ParseResult := {
  scheme : string;
  netloc : string;
  path : string;
  params : string;
  query : string;
  fragment : string }.

Definition uses_params : list string :=
  [""; "ftp"; "hdl"; "prospero"; "http"; "imap"; "https"; "shttp"; "rtsp";
   "rtspu"; "sip"; "sips"; "mms"; "sftp"; "tel"].

(** [scheme_chars]: letters, digits and [+-.] *)
Definition is_scheme_char (c : ascii) : bool :=
  Str.is_lower c || Str.is_upper c || Str.is_digit c || Str.one_of "+-." c.

(** [_WHATWG_C0_CONTROL_OR_SPACE]: the characters 0x00 .. 0x20 *)
Definition is_c0_control_or_space (c : ascii) : bool :=
  (nat_of_ascii c <=? 32)%nat.

(** [_UNSAFE_URL_BYTES_TO_REMOVE]: tab, carriage return, line feed *)
Definition is_unsafe_url_byte (c : ascii) : bool :=
  let n := nat_of_ascii c in (n =? 9)%nat || (n =? 13)%nat || (n =? 10)%nat.

(** The scheme test of [urlsplit]: [i = url.find(':')], [i > 0], a letter
    first and only scheme characters before the colon. *)
Definition split_scheme (url : string) : string * string :=
  match Str.partition ":" url with
  | Some (String c0 pre, rest) =>
      if Str.is_alpha c0 && Str.all_chars is_scheme_char (String c0 pre)
      then (Str.lower (String c0 pre), rest)
      else (EmptyString, url)
  | _ => (EmptyString, url)
  end.

(** [_splitnetloc(url, 2)] on a [url] that starts with [//]; the argument is
    [url[2:]]. *)
Definition splitnetloc (url2 : string) : string * string :=
  Str.break (Str.one_of "/?#") url2.

(** [_splitparams] *)
Definition splitparams (url : string) : string * string :=
  match Str.rbreak "/" url with
  | Some (a, b) =>
      match Str.partition ";" b with
      | Some (b1, b2) => (a +:+ b1, b2)
      | None => (url, EmptyString)
      end
  | None =>
      match Str.partition ";" url with
      | Some (a, b) => (a, b)
      | None => (Str.init url, url)
      end
  end.

(** ** The environment of a crawl *)

(** What [requests.get(url, headers=..., timeout=10)] gives: a
    [requests.RequestException] (connection error, timeout, invalid URL, too
    many redirects), or the final response, of which the program reads the
    status code, the [Content-Type] header (the empty string when the header
    is absent) and, through [BeautifulSoup], the [href] values of the [a]
    elements that have one, in document order. *)
Inductive response :=
  | RequestException
  | Response (status_code : Z) (content_type : string) (hrefs : list string).

(** [response.raise_for_status()]: [true] where it raises [HTTPError], a
    [RequestException], which is for the client errors 400 .. 499 and the
    server errors 500 .. 599. *)
Definition raise_for_status (status_code : Z) : bool :=
  ((400 <=? status_code)%Z && (status_code <? 500)%Z)
  || ((500 <=? status_code)%Z && (status_code <? 600)%Z).

Class World := {
  (** [_check_bracketed_netloc] of urllib.parse: the validation of a
      bracketed host as an IPv6 or IPvFuture literal, [false] where it raises
      [ValueError].  [urlsplit] consults it only for a netloc that holds both
      brackets. *)
  check_bracketed_netloc : string -> bool;
  (** [unicodedata.normalize('NFKC', s)] *)
  unicodedata_normalize : string -> string;
  (** [urllib.parse.urljoin(base, url)]; [None] is the [ValueError] it raises
      when one of its arguments does not parse. *)
  urljoin : string -> string -> option string;
  (** The site: what a GET of each URL returns. *)
  requests_get : string -> response }.

Section Crawler.

Context `{W : !World}.

(** The bracket tests of [urlsplit]; [false] stands for [ValueError]. *)
Definition netloc_ok (netloc : string) : bool :=
  let opening := Str.has_char (Ascii.eqb "[") netloc in
  let closing := Str.has_char (Ascii.eqb "]") netloc in
  if (opening && negb closing) || (closing && negb opening) then false
  else if opening && closing then check_bracketed_netloc netloc
  else true.

(** [_checknetloc] of urllib.parse; [false] stands for [ValueError].  A
    netloc that is empty or ASCII passes at once; another one must not gain
    one of [/?#@:] when it is normalised. *)
Definition checknetloc (netloc : string) : bool :=
  if String.eqb netloc "" || Str.isascii netloc then true
  else
    let n := Str.remove (Str.one_of "@:#?") netloc in
    let netloc2 := unicodedata_normalize n in
    if String.eqb n netloc2 then true
    else negb (Str.has_char (Str.one_of "/?#@:") netloc2).

(** [url.lstrip(_WHATWG_C0_CONTROL_OR_SPACE)], then the removal of the
    unsafe bytes. *)
Definition clean_url (url : string) : string :=
  Str.remove is_unsafe_url_byte (Str.lstrip is_c0_control_or_space url).

(** [if url[:2] == '//': netloc, url = _splitnetloc(url, 2)] with its
    bracket checks. *)
Definition split_netloc (url : string) : option (string * string) :=
  match url with
  | String a (String b url2) =>
      if Ascii.eqb a "/" && Ascii.eqb b "/"
      then
        let '(netloc, url) := splitnetloc url2 in
        if netloc_ok netloc then Some (netloc, url) else None
      else Some (EmptyString, url)
  | _ => Some (EmptyString, url)
  end.

(** [if '#' in url: url, fragment = url.split('#', 1)] *)
Definition split_fragment (url : string) : string * string :=
  match Str.partition "#" url with
  | Some (a, b) => (a, b)
  | None => (url, EmptyString)
  end.

(** [if '?' in url: url, query = url.split('?', 1)] *)
Definition split_query (url : string) : string * string :=
  match Str.partition "?" url with
  | Some (a, b) => (a, b)
  | None => (url, EmptyString)
  end.

(** [if scheme in uses_params and ';' in url:
    url, params = _splitparams(url)] *)
Definition split_params (scheme url : string) : string * string :=
  if bool_decide (scheme ∈ uses_params) && Str.has_char (Ascii.eqb ";") url
  then splitparams url
  else (url, EmptyString).

(** [urlparse(url)]: [urlsplit] followed by the parameter split, with the
    default [scheme=''] and [allow_fragments=True].  [None] is the
    [ValueError] of an invalid netloc. *)
Definition urlparse (url : string) : option ParseResult :=
  let '(scheme, url) := split_scheme (clean_url url) in
  '(netloc, url) ← split_netloc url;
  let '(url, fragment) := split_fragment url in
  let '(url, query) := split_query url in
  if negb (checknetloc netloc) then None
  else
    let '(url, params) := split_params scheme url in
    Some {| scheme := scheme; netloc := netloc; path := url;
            params := params; query := query; fragment := fragment |}.

(** ** URL classifier *)

Definition SKIP_EXTENSIONS : list string :=
  [".pdf"; ".jpg"; ".jpeg"; ".png"; ".gif"; ".mp4"; ".zip"; ".doc"; ".docx";
   ".xls"; ".xlsx"].

Definition should_skip_url (url : string) : option bool :=
  parsed_url ← urlparse url;
  let path := Str.lower (path parsed_url) in
  Some (existsb (fun ext => Str.endswith path ext) SKIP_EXTENSIONS).

Definition is_valid_landing_page (url : string) : bool :=
  if Str.contains url "#" || Str.contains url "et_blog" then false else true.

(** ** Program state and effects *)

Inductive event :=
  | Requested (url : string)        (* requests.get(url, ...) *)
  | Warning (url : string)          (* st.warning: non-HTML content *)
  | Error (url : string)            (* st.error: the request failed *)
  | Progress (progress_value : Q)   (* progress_bar / percentage_placeholder *)
  | Status (current_url : string)   (* status_placeholder.text *)
  | Sleep.                          (* time.sleep(1) *)

(** The globals [visited_urls] and [external_links], the locals of
    [crawl_website], and the effects performed so far, oldest first. *)
Record state := {
  urls_to_visit : gset string;
  total_urls_discovered : nat;
  visited_urls : gset string;
  external_links : list (string * string);
  trace : list event }.

Definition set_urls_to_visit (f : gset string) (s : state) : state :=
  {| urls_to_visit := f;
     total_urls_discovered := total_urls_discovered s;
     visited_urls := visited_urls s;
     external_links := external_links s;
     trace := trace s |}.

Definition set_total_urls_discovered (n : nat) (s : state) : state :=
  {| urls_to_visit := urls_to_visit s;
     total_urls_discovered := n;
     visited_urls := visited_urls s;
     external_links := external_links s;
     trace := trace s |}.

Definition set_visited_urls (v : gset string) (s : state) : state :=
  {| urls_to_visit := urls_to_visit s;
     total_urls_discovered := total_urls_discovered s;
     visited_urls := v;
     external_links := external_links s;
     trace := trace s |}.

Definition set_external_links (l : list (string * string)) (s : state)
    : state :=
  {| urls_to_visit := urls_to_visit s;
     total_urls_discovered := total_urls_discovered s;
     visited_urls := visited_urls s;
     external_links := l;
     trace := trace s |}.

Definition emit (e : event) (s : state) : state :=
  {| urls_to_visit := urls_to_visit s;
     total_urls_discovered := total_urls_discovered s;
     visited_urls := visited_urls s;
     external_links := external_links s;
     trace := trace s ++ [e] |}.

(** ** Link extraction *)

(** The body of the [for a_tag in ...] loop of [get_links] on the pair
    ([internal_links], [external_links]); [None] when a [ValueError] of
    [urljoin] or [urlparse] leaves the loop, which happens before the
    iteration has changed either. *)
Definition scan_href (url base_url : string)
    (acc : gset string * list (string * string)) (href : string)
    : option (gset string * list (string * string)) :=
  let '(internal_links, external_links) := acc in
  full_url ← urljoin url href;
  skip ← should_skip_url full_url;
  if (skip : bool) then Some acc
  else if negb (is_valid_landing_page full_url) then Some acc
  else
    parsed_url ← urlparse full_url;
    parsed_base ← urlparse base_url;
    if String.eqb (netloc parsed_url) (netloc parsed_base)
    then Some ({[full_url]} ∪ internal_links, external_links)
    else if Str.startswith full_url "http"
    then Some (internal_links, external_links ++ [(full_url, url)])
    else Some acc.

(** The [for] loop.  The second component is [None] when the loop was left
    by a [ValueError]; the records appended to the global list before that
    stay in it. *)
Fixpoint scan_hrefs (url base_url : string) (hrefs : list string)
    (internal_links : gset string) (external_links : list (string * string))
    : list (string * string) * option (gset string) :=
  match hrefs with
  | [] => (external_links, Some internal_links)
  | href :: hrefs' =>
      match scan_href url base_url (internal_links, external_links) href with
      | Some (internal_links', external_links') =>
          scan_hrefs url base_url hrefs' internal_links' external_links'
      | None => (external_links, None)
      end
  end.

(** [get_links(url, base_url)]: the new state and the returned set, [None]
    when a [ValueError] propagates to the caller (the handler catches
    [requests.RequestException] only). *)
Definition get_links (url base_url : string) (s : state)
    : state * option (gset string) :=
  let s := emit (Requested url) s in
  match requests_get url with
  | RequestException => (emit (Error url) s, Some ∅)
  | Response status_code content_type hrefs =>
      if raise_for_status status_code then (emit (Error url) s, Some ∅)
      else if negb (Str.contains content_type "text/html")
      then (emit (Warning url) s, Some ∅)
      else
        let '(links, r) :=
          scan_hrefs url base_url hrefs ∅ (external_links s) in
        (set_external_links links s, r)
  end.

(** ** The crawl loop *)

(** [len(visited_urls) / total_urls_discovered], as an exact rational. *)
Definition progress_value (s : state) : Q :=
  Z.of_nat (size (visited_urls s)) # Pos.of_nat (total_urls_discovered s).

(** A run is in the loop, or has left it by an exception that
    [crawl_website] does not catch; the state is the one reached. *)
Inductive run :=
  | Running (s : state)
  | Aborted (s : state).

Definition state_of (r : run) : state :=
  match r with Running s | Aborted s => s end.

(** The state once [current_url] is popped and added to [visited_urls]:
    the point at which progress is reported. *)
Definition mark_visited (current_url : string) (s : state) : state :=
  set_visited_urls ({[current_url]} ∪ visited_urls s)
    (set_urls_to_visit (urls_to_visit s ∖ {[current_url]}) s).

(** One iteration of the [while] loop, for the element [current_url] that
    [urls_to_visit.pop()] removes and returns. *)
Definition loop_body (start_url current_url : string) (s : state) : run :=
  if bool_decide (current_url ∈ visited_urls s)
  then Running (set_urls_to_visit (urls_to_visit s ∖ {[current_url]}) s)
  else
    let s := mark_visited current_url s in
    match total_urls_discovered s with
    | O => Aborted s (* ZeroDivisionError *)
    | S _ =>
        let s := emit (Progress (progress_value s)) s in
        let s := emit (Status current_url) s in
        let '(s, r) := get_links current_url start_url s in
        match r with
        | None => Aborted s
        | Some new_links =>
            let new_internal_links :=
              new_links ∖ visited_urls s ∖ urls_to_visit s in
            let s :=
              set_urls_to_visit (urls_to_visit s ∪ new_internal_links) s in
            let s :=
              set_total_urls_discovered
                (total_urls_discovered s + size new_internal_links) s in
            Running (emit Sleep s)
        end
    end.

(** [set.pop()] returns an arbitrary element: the loop takes one step for
    each member of the frontier. *)
Inductive step (start_url : string) : run -> run -> Prop :=
  | step_pop s current_url :
      current_url ∈ urls_to_visit s ->
      step start_url (Running s) (loop_body start_url current_url s).

(** Python does not say which element [set.pop()] returns: [pop] stands for
    that choice, [None] for the [KeyError] of an empty set. *)
Definition pop_choice (pop : gset string -> option string) : Prop :=
  forall f : gset string,
    match pop f with
    | Some u => u ∈ f
    | None => f = ∅
    end.

(** One admissible choice, for running the loop. *)
Definition pop_first (f : gset string) : option string := head (elements f).

(** [while urls_to_visit: ...], for a choice of the popped elements.  The
    result is the run at the exit of the loop; [None] when [fuel] iterations
    did not reach it. *)
Fixpoint while_loop (pop : gset string -> option string) (fuel : nat)
    (start_url : string) (s : state) : option run :=
  if bool_decide (urls_to_visit s = ∅) then Some (Running s)
  else
    match fuel with
    | O => None
    | S fuel' =>
        match pop (urls_to_visit s) with
        | None => Some (Aborted s) (* KeyError *)
        | Some current_url =>
            match loop_body start_url current_url s with
            | Running s' => while_loop pop fuel' start_url s'
            | Aborted s' => Some (Aborted s')
            end
        end
    end.

(** The state in which the [while] loop of [crawl_website(start_url, ...)]
    is entered, for the values the globals have at the call. *)
Definition crawl_website_entry (start_url : string)
    (visited : gset string) (links : list (string * string)) : state :=
  {| urls_to_visit := {[start_url]};
     total_urls_discovered := size ({[start_url]} : gset string);
     visited_urls := visited;
     external_links := links;
     trace := [] |}.

(** [crawl_website(start_url, ...)] called with the globals [visited] and
    [links]. *)
Definition crawl_website (pop : gset string -> option string) (fuel : nat)
    (start_url : string) (visited : gset string)
    (links : list (string * string)) : option run :=
  while_loop pop fuel start_url (crawl_website_entry start_url visited links).

(** The call of the application: both globals are cleared first. *)
Definition start_crawl (root_url : string) : state :=
  crawl_website_entry root_url ∅ [].

End Crawler.

(** ** Notions of the specification *)

(** A URL without its query and fragment: the part before its first [?] or
    [#]. *)
Definition without_query_fragment (url : string) : string :=
  (Str.break (Str.one_of "?#") url).1.


Section Specification.

Context `{W : !World}.



(** The URLs on which [requests.get] was called, oldest first. *)
Definition requests (t : list event) : list string :=
  omap (fun e => match e with Requested url => Some url | _ => None end) t.

(** The progress reports, oldest first. *)
Definition reports (t : list event) : list Q :=
  omap (fun e => match e with Progress q => Some q | _ => None end) t.

(** The runs of [crawl_website(start_url, ...)] called with the globals
    [visited] and [links]. *)
Definition reachable (start_url : string) (visited : gset string)
    (links : list (string * string)) (r : run) : Prop :=
  rtc (step start_url)
    (Running (crawl_website_entry start_url visited links)) r.

(** The [while] loop is over: its condition is false, or an exception has
    left it. *)
Definition finished (r : run) : Prop :=
  match r with
  | Running s => urls_to_visit s = ∅
  | Aborted _ => True
  end.

(** An external-link record is a URL with its host and the host of the
    seed, different ones. *)
Definition external_host (base_url : string) (record : string * string)
    : Prop :=
  exists parsed parsed_base,
    urlparse record.1 = Some parsed /\
    urlparse base_url = Some parsed_base /\
    netloc parsed <> netloc parsed_base.

(** Both filters of the classifier let [url] through. *)
Definition passes_filters (url : string) : Prop :=
  should_skip_url url = Some false /\ is_valid_landing_page url = true.



End Specification.

(** ** Further notions

    What the properties beyond the specification speak of. *)

Section MoreNotions.

Context `{W : !World}.

(** A URL with the netloc of the seed. *)
Definition internal_host (base_url url : string) : Prop :=
  exists parsed parsed_base,
    urlparse url = Some parsed /\
    urlparse base_url = Some parsed_base /\
    netloc parsed = netloc parsed_base.

(** The page [u] links to [x]: [x] is in the set that [get_links] returns
    for [u]. *)
Definition links_to (base_url u x : string) : Prop :=
  exists s new_links,
    (get_links u base_url s).2 = Some new_links /\ x ∈ new_links.

(** The records that [get_links] appends for the page [u], in document
    order: what it leaves in an empty [external_links]. *)
Definition records_of (base_url u : string) : list (string * string) :=
  external_links (get_links u base_url (start_crawl base_url)).1.

(** The number of [time.sleep(1)] calls. *)
Definition sleeps (t : list event) : nat :=
  length (omap (fun e => match e with Sleep => Some () | _ => None end) t).

End MoreNotions.

(** ** The application script *)

(** The test on the root URL when "Start Crawling" is clicked: [not root_url],
    then the two [startswith] tests. *)
Inductive root_check := MissingRoot | BadScheme | Accepted.

Definition check_root_url (root_url : string) : root_check :=
  if String.eqb root_url "" then MissingRoot
  else if negb (Str.startswith root_url "http://")
          && negb (Str.startswith root_url "https://")
  then BadScheme
  else Accepted.

(** [[(link, source) for link, source in external_links
      if keyword_filter in link]] *)
Definition filtered_links (keyword_filter : string)
    (external_links : list (string * string)) : list (string * string) :=
  List.filter (fun '(link, source) => Str.contains link keyword_filter)
    external_links.

(** The messages and the table that the handler of "Start Crawling" shows;
    the progress widgets are in the trace of the crawl. *)
Inductive notice :=
  | NoRootError                                (* st.error: no root URL *)
  | SchemeError                                (* st.error: not http(s):// *)
  | StartInfo (root_url : string)              (* st.info: starting crawl *)
  | FoundSuccess (n : nat)                     (* st.success: found n links *)
  | LinksTable (rows : list (string * string)) (* st.dataframe *)
  | NoMatchWarning                             (* st.warning: no match *)
  | NoLinksWarning                             (* st.warning: no links *)
  | CrawlError.                                (* st.error: exception *)

Section Application.

Context `{W : !World}.

(** The body of [if st.button("Start Crawling"):], for the stripped inputs
    [root_url] and [keyword_filter] and the globals at the click: what is
    shown, and the globals afterwards.  [except Exception] catches whatever
    aborts the crawl.  [None] when [fuel] iterations did not end the
    crawl. *)
Definition start_crawling (pop : gset string -> option string) (fuel : nat)
    (root_url keyword_filter : string) (visited : gset string)
    (links : list (string * string))
    : option (list notice * (gset string * list (string * string))) :=
  match check_root_url root_url with
  | MissingRoot => Some ([NoRootError], (visited, links))
  | BadScheme => Some ([SchemeError], (visited, links))
  | Accepted =>
      r ← crawl_website pop fuel root_url ∅ [];
      let shown :=
        match r with
        | Aborted _ => [CrawlError]
        | Running s =>
            match external_links s with
            | [] => [NoLinksWarning]
            | _ :: _ =>
                FoundSuccess (length (external_links s))
                :: match filtered_links keyword_filter (external_links s) with
                   | [] => [NoMatchWarning]
                   | rows => [LinksTable rows]
                   end
            end
        end in
      Some (StartInfo root_url :: shown,
            (visited_urls (state_of r), external_links (state_of r)))
  end.

End Application.

(** ** A small site

    [https://a.com] links to two of its own pages and to [https://b.com];
    [/p2] is an empty HTML page, [/p3] is a PDF served as such, and every
    other URL fails.  All hrefs are absolute, and [urljoin] returns an
    absolute href of the same scheme as it is. *)
Module Demo.

Definition get (url : string) : response :=
  if String.eqb url "https://a.com"
  then Response 200 "text/html; charset=utf-8"
         ["https://a.com/p2"; "https://b.com"; "https://a.com/p3";
          "https://a.com/p4"; "https://b.com"]
  else if String.eqb url "https://a.com/p2" then Response 200 "text/html" []
  else if String.eqb url "https://a.com/p3"
  then Response 200 "application/pdf" []
  else RequestException.

Definition site : World :=
  {| check_bracketed_netloc := fun _ => true;
     unicodedata_normalize := fun s => s;
     urljoin := fun _ href => Some href;
     requests_get := get |}.

Definition seed : string := "https://a.com".

Definition universe : gset string :=
  {[ "https://a.com"; "https://a.com/p2"; "https://a.com/p3";
     "https://a.com/p4" ]}.

Definition s0 : state := @start_crawl seed.
Definition r1 : run := @loop_body site seed "https://a.com" s0.
Definition r2 : run := @loop_body site seed "https://a.com/p2" (state_of r1).
Definition r3 : run := @loop_body site seed "https://a.com/p3" (state_of r2).
Definition r4 : run := @loop_body site seed "https://a.com/p4" (state_of r3).

(** What the handler shows for the small site and the keyword [b.com]. *)
Definition table : list (string * string) :=
  [("https://b.com", "https://a.com"); ("https://b.com", "https://a.com")].

Definition shown : list notice :=
  [StartInfo seed; FoundSuccess 2; LinksTable table].

End Demo.

(** Another order for the crawl of the small site: the pages behind the home
    page are popped last to first. *)
Module Tour.

Import Demo.

Definition t2 : run := @loop_body site seed "https://a.com/p4" (state_of r1).
Definition t3 : run := @loop_body site seed "https://a.com/p3" (state_of t2).
Definition t4 : run := @loop_body site seed "https://a.com/p2" (state_of t3).

Definition rows : list (string * string) :=
  [("https://b.com/x", "https://a.com"); ("https://c.com", "https://a.com");
   ("https://b.com/y", "https://a.com/p2")].

Definition matches : list (string * string) :=
  [("https://b.com/x", "https://a.com");
   ("https://b.com/y", "https://a.com/p2")].

End Tour.

(** ** A site with a malformed link

    The home page links to [/p2] and [/p3], and [/p3] holds the href
    [https://[bad], whose netloc has an opening bracket only: [urljoin]
    raises [ValueError] on it, as [urlparse] does. *)
Module BadHref.

Definition get (url : string) : response :=
  if String.eqb url "https://a.com"
  then Response 200 "text/html" ["https://a.com/p2"; "https://a.com/p3"]
  else if String.eqb url "https://a.com/p3"
  then Response 200 "text/html" ["https://[bad"]
  else Response 200 "text/html" [].

Definition join (base href : string) : option string :=
  if String.eqb href "https://[bad" then None else Some href.

Definition site : World :=
  {| check_bracketed_netloc := fun _ => true;
     unicodedata_normalize := fun s => s;
     urljoin := join;
     requests_get := get |}.

Definition seed : string := "https://a.com".

Definition universe : gset string :=
  {[ "https://a.com"; "https://a.com/p2"; "https://a.com/p3" ]}.

(** The run that pops the home page and then [/p3]. *)
Definition b1 : run := @loop_body site seed "https://a.com" (start_crawl seed).
Definition b2 : run := @loop_body site seed "https://a.com/p3" (state_of b1).

End BadHref.

(** ** A root URL with a host outside ASCII

    U+2100, the sign [a/c], is the bytes E2 84 80 in UTF-8, and NFKC turns it
    into the three characters [a/c]. *)
Module AccountOf.

Definition sign : string := String "226" (String "132" (String "128" "")).

Definition root : string := "https://a.com" +:+ sign.

Definition normalize (s : string) : string :=
  if String.eqb s ("a.com" +:+ sign) then "a.coma/c" else s.

Definition site : World :=
  {| check_bracketed_netloc := fun _ => true;
     unicodedata_normalize := normalize;
     urljoin := fun _ href => Some href;
     requests_get := fun _ => RequestException |}.

End AccountOf.

(** ** A page with a status outside 2xx

    The home page answers 300 (Multiple Choices), a status that [requests]
    does not follow and [raise_for_status] does not raise for, with an HTML
    body that links to a page of the site and to another site. *)
Module Status300.

Definition get (url : string) : response :=
  if String.eqb url "https://a.com"
  then Response 300 "text/html" ["https://a.com/p2"; "https://b.com"]
  else RequestException.

Definition site : World :=
  {| check_bracketed_netloc := fun _ => true;
     unicodedata_normalize := fun s => s;
     urljoin := fun _ href => Some href;
     requests_get := get |}.

Definition seed : string := "https://a.com".

End Status300.

(** * Properties *)

(** ** Strings *)

Module StrFacts.

Lemma append_empty_r (s : string) : s +:+ "" = s.
Proof. induction s as [|c s IH]; simpl; [done | by rewrite IH]. Qed.

Lemma append_assoc (a b c : string) : (a +:+ b) +:+ c = a +:+ b +:+ c.
Proof. induction a as [|x a IH]; simpl; [done | by rewrite IH]. Qed.

Lemma ascii_eqb_refl (c : ascii) : Ascii.eqb c c = true.
Proof. by apply Ascii.eqb_eq. Qed.

Lemma startswith_spec (s p : string) :
  Str.startswith s p = true <-> exists t, s = p +:+ t.
Proof.
  revert s. induction p as [|a p IH]; intros s; simpl.
  - split; [intros _; by exists s | done].
  - destruct s as [|b s].
    + split; [done | intros [t Ht]; discriminate].
    + rewrite andb_true_iff, Ascii.eqb_eq, IH. split.
      * intros [-> [t ->]]. by exists t.
      * intros [t Ht]. injection Ht as -> ->. eauto.
Qed.

Lemma contains_spec (s p : string) :
  Str.contains s p = true <-> exists a b, s = a +:+ p +:+ b.
Proof.
  induction s as [|c s IH].
  - simpl. rewrite orb_false_r, startswith_spec. split.
    + intros [t Ht]. by exists ""%string, t.
    + intros [[|x a] [b Hb]]; [by exists b | discriminate].
  - cbn [Str.contains]. rewrite orb_true_iff, startswith_spec, IH. split.
    + intros [[t Ht] | (a & b & ->)].
      * by exists ""%string, t.
      * by exists (String c a), b.
    + intros [[|x a] [b Hb]].
      * left. by exists b.
      * right. injection Hb as -> ->. eauto.
Qed.

Lemma endswith_spec (s e : string) :
  Str.endswith s e = true <-> exists a, s = a +:+ e.
Proof.
  induction s as [|c s IH].
  - cbn [Str.endswith]. rewrite orb_false_r, String.eqb_eq. split.
    + intros <-. by exists ""%string.
    + intros [[|x a] Ha]; [done | discriminate].
  - cbn [Str.endswith]. rewrite orb_true_iff, String.eqb_eq, IH. split.
    + intros [<- | [a ->]]; [by exists ""%string | by exists (String c a)].
    + intros [[|x a] Ha]; [by left |].
      right. injection Ha as -> ->. eauto.
Qed.

Lemma has_char_app p (a b : string) :
  Str.has_char p (a +:+ b) = Str.has_char p a || Str.has_char p b.
Proof.
  induction a as [|x a IH]; simpl; [done | by rewrite IH, orb_assoc].
Qed.

Lemma has_char_impl (p q : ascii -> bool) (s : string) :
  (forall c, p c = true -> q c = true) ->
  Str.has_char q s = false -> Str.has_char p s = false.
Proof.
  intros Hpq. induction s as [|c s IH]; simpl; [done |].
  intros [Hc Hs]%orb_false_elim. rewrite (IH Hs), orb_false_r.
  destruct (p c) eqn:Hp; [|done]. by rewrite (Hpq c Hp) in Hc.
Qed.

Lemma has_char_lstrip p q (s : string) :
  Str.has_char q s = false -> Str.has_char q (Str.lstrip p s) = false.
Proof.
  induction s as [|c s IH]; simpl; [done |].
  intros [Hc Hs]%orb_false_elim.
  destruct (p c); [by apply IH | simpl; by rewrite Hc, Hs].
Qed.

Lemma has_char_remove p q (s : string) :
  Str.has_char q s = false -> Str.has_char q (Str.remove p s) = false.
Proof.
  induction s as [|c s IH]; simpl; [done |].
  intros [Hc Hs]%orb_false_elim.
  destruct (p c); [by apply IH | simpl; by rewrite Hc, IH].
Qed.

Lemma lstrip_app p (v : string) c t :
  p c = false ->
  Str.lstrip p (v +:+ String c t) = Str.lstrip p v +:+ String c t.
Proof.
  intros Hc. induction v as [|x v IH]; simpl; [by rewrite Hc |].
  by destruct (p x).
Qed.

Lemma remove_app p (a b : string) :
  Str.remove p (a +:+ b) = Str.remove p a +:+ Str.remove p b.
Proof.
  induction a as [|x a IH]; simpl; [done |].
  destruct (p x); simpl; by rewrite IH.
Qed.

(** [Str.break] cuts [s] in two, the first part free of [p]. *)
Lemma break_app_eq p (s : string) :
  (Str.break p s).1 +:+ (Str.break p s).2 = s.
Proof.
  induction s as [|c s IH]; simpl; [done |].
  destruct (p c); [done |].
  destruct (Str.break p s) as [a b]. simpl in *. by rewrite IH.
Qed.

Lemma break_fst_free p (s : string) :
  Str.has_char p (Str.break p s).1 = false.
Proof.
  induction s as [|c s IH]; simpl; [done |].
  destruct (p c) eqn:Hc; [done |].
  destruct (Str.break p s) as [a b]. simpl in *. by rewrite Hc, IH.
Qed.

Lemma break_snd_head p (s : string) c r :
  (Str.break p s).2 = String c r -> p c = true.
Proof.
  induction s as [|x s IH]; simpl; [done |].
  destruct (p x) eqn:Hx; simpl.
  - by intros [= <- _].
  - destruct (Str.break p s) as [a b]. simpl in *. apply IH.
Qed.

Lemma break_cons p c (s : string) :
  Str.break p (String c s)
  = if p c then (""%string, String c s)
    else (String c (Str.break p s).1, (Str.break p s).2).
Proof. simpl. destruct (p c); [done | by destruct (Str.break p s)]. Qed.

Lemma break_free p (s : string) :
  Str.has_char p s = false -> Str.break p s = (s, ""%string).
Proof.
  induction s as [|c s IH]; simpl; [done |].
  intros [Hc Hs]%orb_false_elim. by rewrite Hc, (IH Hs).
Qed.

Lemma break_hit p (s : string) :
  Str.has_char p s = true -> exists c r, (Str.break p s).2 = String c r.
Proof.
  induction s as [|x s IH]; simpl; [done |].
  destruct (p x) eqn:Hx; simpl; [eauto |].
  intros Hs. destruct (IH Hs) as (c & r & Hcr).
  destruct (Str.break p s) as [a b]. simpl in *. eauto.
Qed.

(** Appending to a string in which [p] occurs leaves the cut where it is. *)
Lemma break_app_hit p (v t : string) :
  Str.has_char p v = true ->
  Str.break p (v +:+ t) = ((Str.break p v).1, (Str.break p v).2 +:+ t).
Proof.
  induction v as [|x v IH]; simpl; [done |].
  destruct (p x) eqn:Hx; simpl; [done |].
  intros Hv. rewrite (IH Hv). by destruct (Str.break p v).
Qed.

(** Appending to a string free of [p] moves the cut into what is appended. *)
Lemma break_app_free p (v t : string) :
  Str.has_char p v = false ->
  Str.break p (v +:+ t) = (v +:+ (Str.break p t).1, (Str.break p t).2).
Proof.
  induction v as [|x v IH]; simpl; [by destruct (Str.break p t) |].
  intros [Hx Hv]%orb_false_elim. by rewrite Hx, (IH Hv).
Qed.

Lemma all_chars_app p (a b : string) :
  Str.all_chars p (a +:+ b) = Str.all_chars p a && Str.all_chars p b.
Proof.
  induction a as [|x a IH]; simpl; [done | by rewrite IH, andb_assoc].
Qed.

End StrFacts.

(** ** urlparse: the path does not depend on the query or the fragment *)

Section UrlparseFacts.

Context `{W : !World}.
Import StrFacts.

Implicit Types url v t r : string.

Lemma mark_cases (c : ascii) :
  Str.one_of "?#" c = true -> c = "?"%char \/ c = "#"%char.
Proof.
  unfold Str.one_of. simpl. rewrite orb_false_r, orb_true_iff, !Ascii.eqb_eq.
  tauto.
Qed.

Lemma mark_free_of v (c : ascii) :
  Str.one_of "?#" c = true ->
  Str.has_char (Str.one_of "?#") v = false ->
  Str.has_char (Ascii.eqb c) v = false.
Proof.
  intros Hc. apply has_char_impl. intros x Hx%Ascii.eqb_eq. by subst x.
Qed.

Lemma clean_url_app v (c : ascii) t :
  Str.one_of "?#" c = true ->
  clean_url (v +:+ String c t)
  = clean_url v +:+ String c (Str.remove is_unsafe_url_byte t).
Proof.
  intros Hc. unfold clean_url.
  rewrite lstrip_app, remove_app
    by (by destruct (mark_cases c Hc) as [-> | ->]).
  simpl. by destruct (mark_cases c Hc) as [-> | ->].
Qed.

Lemma clean_url_free v :
  Str.has_char (Str.one_of "?#") v = false ->
  Str.has_char (Str.one_of "?#") (clean_url v) = false.
Proof. intros Hv. by apply has_char_remove, has_char_lstrip. Qed.

Lemma partition_app_hit (x : ascii) v t :
  Str.has_char (Ascii.eqb x) v = true ->
  Str.partition x (v +:+ t)
  = (fun '(a, b) => (a, b +:+ t)) <$> Str.partition x v.
Proof.
  intros Hv. unfold Str.partition. rewrite (break_app_hit _ _ _ Hv).
  destruct (break_hit _ _ Hv) as (c & r & Hcr).
  destruct (Str.break (Ascii.eqb x) v) as [a b]. simpl in *. by subst b.
Qed.

Lemma partition_free (x : ascii) v :
  Str.has_char (Ascii.eqb x) v = false -> Str.partition x v = None.
Proof. intros Hv. unfold Str.partition. by rewrite (break_free _ _ Hv). Qed.

Lemma partition_hit_free (x : ascii) v t :
  Str.has_char (Ascii.eqb x) v = false ->
  Str.partition x (v +:+ String x t) = Some (v, t).
Proof.
  intros Hv. unfold Str.partition. rewrite (break_app_free _ _ _ Hv).
  simpl. by rewrite ascii_eqb_refl, append_empty_r.
Qed.

Lemma partition_Some (x : ascii) url a b :
  Str.partition x url = Some (a, b) ->
  url = a +:+ String x b /\ Str.has_char (Ascii.eqb x) a = false.
Proof.
  unfold Str.partition. intros Hp.
  pose proof (break_app_eq (Ascii.eqb x) url) as Heq.
  pose proof (break_fst_free (Ascii.eqb x) url) as Hfree.
  destruct (Str.break (Ascii.eqb x) url) as [a' [|c b']] eqn:Hb; [done |].
  injection Hp as -> ->. simpl in *.
  assert (Ascii.eqb x c = true) as ->%Ascii.eqb_eq; [|done].
  apply (break_snd_head (Ascii.eqb x) url c b). by rewrite Hb.
Qed.

(** The scheme is decided before the first [?] or [#]. *)
Lemma split_scheme_app v (c : ascii) t :
  Str.one_of "?#" c = true ->
  Str.has_char (Str.one_of "?#") v = false ->
  split_scheme (v +:+ String c t)
  = ((split_scheme v).1, (split_scheme v).2 +:+ String c t)
    /\ Str.has_char (Str.one_of "?#") (split_scheme v).2 = false.
Proof.
  intros Hc Hv. unfold split_scheme.
  destruct (Str.has_char (Ascii.eqb ":") v) eqn:Hcolon.
  - rewrite (partition_app_hit _ _ _ Hcolon).
    destruct (Str.partition ":" v) as [[a b]|] eqn:Hp; simpl; [|done].
    apply partition_Some in Hp as [-> _].
    rewrite has_char_app in Hv. apply orb_false_elim in Hv as [Ha Hb].
    simpl in Hb.
    destruct a as [|c0 pre]; simpl.
    + done.
    + destruct (Str.is_alpha c0 && _); simpl; [done |].
      split; [done |]. simpl in Ha.
      apply orb_false_elim in Ha as [Hc0 Hpre].
      rewrite has_char_app, Hc0, Hpre. simpl. by rewrite Hb.
  - rewrite (partition_free _ _ Hcolon). simpl. split; [|done].
    assert (Ascii.eqb ":" c = false) as Hne
      by (by destruct (mark_cases c Hc) as [-> | ->]).
    assert (is_scheme_char c = false) as Hsc
      by (by destruct (mark_cases c Hc) as [-> | ->]).
    assert (Str.is_alpha c = false) as Hal
      by (by destruct (mark_cases c Hc) as [-> | ->]).
    unfold Str.partition.
    rewrite (break_app_free _ _ _ Hcolon), break_cons, Hne. simpl.
    destruct (Str.break (Ascii.eqb ":") t) as [a [|x b]]; simpl; [done |].
    destruct v as [|c0 v]; simpl.
    + by rewrite Hal.
    + by rewrite all_chars_app; simpl; rewrite Hsc, andb_false_r, !andb_false_r.
Qed.

(** So is the netloc. *)
Lemma split_netloc_app v (c : ascii) t :
  Str.one_of "?#" c = true ->
  Str.has_char (Str.one_of "?#") v = false ->
  split_netloc (v +:+ String c t)
  = (fun '(n, r) => (n, r +:+ String c t)) <$> split_netloc v
    /\ forall n r, split_netloc v = Some (n, r) ->
         Str.has_char (Str.one_of "?#") r = false.
Proof.
  intros Hc Hv.
  assert (Ascii.eqb c "/" = false) as Hne
    by (by destruct (mark_cases c Hc) as [-> | ->]).
  assert (Str.one_of "/?#" c = true) as Hd
    by (by destruct (mark_cases c Hc) as [-> | ->]).
  unfold split_netloc.
  destruct v as [|a [|b v]]; simpl.
  - split; [|by intros n r [= <- <-]].
    destruct t; [done | by rewrite Hne].
  - rewrite Hne, andb_false_r. split; [done | by intros n r [= <- <-]].
  - destruct (Ascii.eqb a "/" && Ascii.eqb b "/") eqn:Hab; simpl;
      [|split; [done | by intros n r [= <- <-]]].
    simpl in Hv. apply orb_false_elim in Hv as [_ [_ Hv]%orb_false_elim].
    unfold splitnetloc.
    pose proof (break_app_eq (Str.one_of "/?#") v) as Heq.
    destruct (Str.has_char (Str.one_of "/?#") v) eqn:Hslash.
    + rewrite (break_app_hit _ _ _ Hslash).
      destruct (Str.break (Str.one_of "/?#") v) as [n r]. simpl in *.
      destruct (netloc_ok n); simpl; [|done].
      split; [done |]. intros n' r' [= <- <-].
      rewrite <- Heq, has_char_app in Hv.
      by apply orb_false_elim in Hv as [_ ?].
    + rewrite (break_app_free _ _ _ Hslash), (break_free _ _ Hslash).
      simpl. rewrite Hd. simpl. rewrite append_empty_r.
      destruct (netloc_ok v); simpl; [|done].
      split; [done |]. by intros n' r' [= <- <-].
Qed.

(** What is left of a [url] free of [?] and [#] once the fragment and the
    query are split off is [url], whatever is appended behind a [?] or [#]. *)
Lemma split_query_fragment_app v (c : ascii) t :
  Str.one_of "?#" c = true ->
  Str.has_char (Str.one_of "?#") v = false ->
  (split_query (split_fragment (v +:+ String c t)).1).1 = v.
Proof.
  intros Hc Hv.
  assert (Str.has_char (Ascii.eqb "#") v = false) as Hf
    by (by apply mark_free_of).
  assert (Str.has_char (Ascii.eqb "?") v = false) as Hq
    by (by apply mark_free_of).
  unfold split_fragment, split_query.
  destruct (mark_cases c Hc) as [-> | ->].
  - assert (exists a, (match Str.partition "#" (v +:+ String "?" t) with
                       | Some (a, b) => (a, b)
                       | None => (v +:+ String "?" t, ""%string)
                       end).1 = v +:+ String "?" a) as [a ->].
    { unfold Str.partition. rewrite (break_app_free _ _ _ Hf). simpl.
      destruct (Str.break (Ascii.eqb "#") t) as [a [|x b]]; simpl; eauto. }
    by rewrite (partition_hit_free _ _ _ Hq).
  - rewrite (partition_hit_free _ _ _ Hf). simpl.
    by rewrite (partition_free _ _ Hq).
Qed.

Lemma split_query_fragment_free v :
  Str.has_char (Str.one_of "?#") v = false ->
  (split_query (split_fragment v).1).1 = v.
Proof.
  intros Hv. unfold split_fragment, split_query.
  rewrite (partition_free "#" v) by (by apply mark_free_of). simpl.
  by rewrite (partition_free "?" v) by (by apply mark_free_of).
Qed.

Lemma urlparse_path url :
  path <$> urlparse url
  = '(n, r) ← split_netloc (split_scheme (clean_url url)).2;
    if checknetloc n
    then Some (split_params (split_scheme (clean_url url)).1
                 (split_query (split_fragment r).1).1).1
    else None.
Proof.
  unfold urlparse. destruct (split_scheme (clean_url url)) as [sch u]. simpl.
  destruct (split_netloc u) as [[n r]|]; simpl; [|done].
  destruct (split_fragment r) as [u1 f]. simpl.
  destruct (split_query u1) as [u2 q]. simpl.
  destruct (checknetloc n); simpl; [|done].
  by destruct (split_params sch u2).
Qed.

(** Whatever follows the first [?] or [#] of a URL has no part in its
    path. *)
Lemma urlparse_path_app v (c : ascii) t :
  Str.one_of "?#" c = true ->
  Str.has_char (Str.one_of "?#") v = false ->
  path <$> urlparse (v +:+ String c t) = path <$> urlparse v.
Proof.
  intros Hc Hv. rewrite !urlparse_path, (clean_url_app _ _ _ Hc).
  pose proof (clean_url_free v Hv) as Hv1.
  destruct (split_scheme_app (clean_url v) c
              (Str.remove is_unsafe_url_byte t) Hc Hv1) as [-> Hv2].
  simpl.
  destruct (split_netloc_app (split_scheme (clean_url v)).2 c
              (Str.remove is_unsafe_url_byte t) Hc Hv2) as [-> Hv3].
  destruct (split_netloc (split_scheme (clean_url v)).2) as [[n r]|];
    simpl; [|done].
  by rewrite (split_query_fragment_app _ _ _ Hc (Hv3 n r eq_refl)),
    (split_query_fragment_free _ (Hv3 n r eq_refl)).
Qed.

Lemma urlparse_path_cut url :
  path <$> urlparse (Str.break (Str.one_of "?#") url).1
  = path <$> urlparse url.
Proof.
  pose proof (break_app_eq (Str.one_of "?#") url) as Heq.
  pose proof (break_fst_free (Str.one_of "?#") url) as Hfree.
  pose proof (break_snd_head (Str.one_of "?#") url) as Hhead.
  destruct (Str.break (Str.one_of "?#") url) as [v [|c t]]; simpl in *.
  - by rewrite <- Heq, append_empty_r.
  - rewrite <- Heq. symmetry. apply urlparse_path_app; eauto.
Qed.

End UrlparseFacts.

(** ** The URL classifier *)

Section ClassifierFacts.

Context `{W : !World}.
Import StrFacts.

Lemma should_skip_url_path (url : string) :
  should_skip_url url
  = (fun p => existsb (fun ext => Str.endswith (Str.lower p) ext)
                SKIP_EXTENSIONS) <$> (path <$> urlparse url).
Proof. unfold should_skip_url. by destruct (urlparse url). Qed.

(** C7. [should_skip_url] returns true exactly when the path component that
    [urlparse] gives, lower-cased, ends with one of [SKIP_EXTENSIONS]; it
    raises exactly when [urlparse] does; the part of the URL from its first
    [?] or [#] on (query and fragment) has no influence on the result; and
    the two sample URLs are skipped. *)
Theorem should_skip_url_spec :
  (forall url,
     should_skip_url url = Some true <->
     exists parsed ext a,
       urlparse url = Some parsed /\ ext ∈ SKIP_EXTENSIONS /\
       Str.lower (path parsed) = a +:+ ext) /\
  (forall url, should_skip_url url = None <-> urlparse url = None) /\
  (forall url,
     should_skip_url (without_query_fragment url) = should_skip_url url) /\
  should_skip_url "https://x.com/a.PDF" = Some true /\
  should_skip_url "https://x.com/a.pdf?x=1" = Some true.
Proof.
  split; [|split; [|split; [|split]]].
  - intros url. unfold should_skip_url.
    destruct (urlparse url) as [parsed|]; cbn [mbind option_bind].
    + split.
      * intros Hex. apply (inj Some) in Hex.
        apply existsb_exists in Hex as (ext & Hin & Hend).
        apply endswith_spec in Hend as [a Ha].
        exists parsed, ext, a. by rewrite <- list_elem_of_In in Hin.
      * intros (parsed' & ext & a & [= <-] & Hin & Ha). f_equal.
        apply existsb_exists. exists ext. split.
        -- by apply list_elem_of_In.
        -- apply endswith_spec. eauto.
    + split; [done | by intros (? & ? & ? & ? & _)].
  - intros url. unfold should_skip_url. by destruct (urlparse url).
  - intros url. unfold without_query_fragment.
    by rewrite !should_skip_url_path, urlparse_path_cut.
  - reflexivity.
  - reflexivity.
Qed.

(** The path is the [path] attribute of [urlparse]: the parameters that
    follow a [;] in the last segment are not part of it. *)
Example should_skip_url_params :
  should_skip_url "https://x.com/a.pdf;v=2" = Some true /\
  should_skip_url "https://x.com/a.pdf/view" = Some false.
Proof. by split. Qed.

(** C8. [is_valid_landing_page] returns false exactly when the character
    [#] or the substring [et_blog] occurs somewhere in the URL string, and
    true otherwise; the three sample URLs get false, false and true. *)
Theorem is_valid_landing_page_spec :
  (forall url,
     is_valid_landing_page url = false <->
     (exists a b, url = a +:+ "#" +:+ b) \/
     (exists a b, url = a +:+ "et_blog" +:+ b)) /\
  (forall url,
     is_valid_landing_page url = true <->
     ~ ((exists a b, url = a +:+ "#" +:+ b) \/
        (exists a b, url = a +:+ "et_blog" +:+ b))) /\
  is_valid_landing_page "https://x.com/a#section" = false /\
  is_valid_landing_page "https://x.com/et_blog/post" = false /\
  is_valid_landing_page "https://x.com/a" = true.
Proof.
  assert (forall url,
     is_valid_landing_page url = false <->
     (exists a b, url = a +:+ "#" +:+ b) \/
     (exists a b, url = a +:+ "et_blog" +:+ b)) as Hfalse.
  { intros url. unfold is_valid_landing_page.
    rewrite <- !contains_spec, <- orb_true_iff.
    destruct (Str.contains url "#" || Str.contains url "et_blog");
      split; congruence. }
  split; [exact Hfalse |]. split; [|by repeat split].
  intros url. rewrite <- Hfalse.
  destruct (is_valid_landing_page url); split; congruence.
Qed.

End ClassifierFacts.

(** ** Link extraction *)

Section ExtractionFacts.

Context `{W : !World}.

Implicit Types (url base_url href : string) (s : state).
Implicit Types (internal : gset string) (links : list (string * string)).



(** What one pass of the loop body can do to the two accumulators. *)
Lemma scan_href_cases url base_url internal links href internal' links' :
  scan_href url base_url (internal, links) href = Some (internal', links') ->
  (internal' = internal /\ links' = links) \/
  (exists full_url,
     urljoin url href = Some full_url /\ passes_filters full_url /\
     ((internal' = {[full_url]} ∪ internal /\ links' = links) \/
      (internal' = internal /\ links' = links ++ [(full_url, url)] /\
       external_host base_url (full_url, url)))).
Proof.
  unfold scan_href.
  destruct (urljoin url href) as [full_url|]; cbn [mbind option_bind]; [|done].
  destruct (should_skip_url full_url) as [[|]|] eqn:Hskip;
    cbn [mbind option_bind]; [by intros [= <- <-]; left | | done].
  destruct (is_valid_landing_page full_url) eqn:Hvalid;
    cbn [negb]; [|by intros [= <- <-]; left].
  destruct (urlparse full_url) as [parsed|] eqn:Hp;
    cbn [mbind option_bind]; [|done].
  destruct (urlparse base_url) as [parsed_base|] eqn:Hb;
    cbn [mbind option_bind]; [|done].
  destruct (String.eqb (netloc parsed) (netloc parsed_base)) eqn:Hhost.
  - intros [= <- <-]. right. exists full_url. repeat split; auto.
  - destruct (Str.startswith full_url "http").
    + intros [= <- <-]. right. exists full_url. repeat split; auto.
      right. repeat split; auto.
      exists parsed, parsed_base. repeat split; auto.
      by apply String.eqb_neq.
    + intros [= <- <-]. by left.
Qed.

(** The loop only appends to [external_links], records with an external
    host whose source is the page; the links it returns have passed both
    filters. *)
Lemma scan_hrefs_spec url base_url hrefs internal links links' r :
  scan_hrefs url base_url hrefs internal links = (links', r) ->
  (exists new,
     links' = links ++ new /\
     Forall (fun record => external_host base_url record /\ record.2 = url)
       new) /\
  (forall internal',
     r = Some internal' ->
     forall x, x ∈ internal' -> x ∈ internal \/ passes_filters x).
Proof.
  revert internal links. induction hrefs as [|href hrefs IH];
    intros internal links; cbn [scan_hrefs].
  - intros [= <- <-]. split.
    + exists []. by rewrite app_nil_r.
    + intros ? [= <-]. auto.
  - destruct (scan_href url base_url (internal, links) href)
      as [[internal1 links1]|] eqn:Hstep.
    + intros Hrest. apply IH in Hrest as [(new & -> & Hnew) Hint].
      apply scan_href_cases in Hstep
        as [[-> ->] | (full_url & _ & Hpass & [[-> ->] | (-> & -> & Hext)])].
      * eauto.
      * split; [eauto |]. intros internal' Hr x Hx.
        destruct (Hint internal' Hr x Hx) as [Hin | ?]; [|auto].
        apply elem_of_union in Hin as [->%elem_of_singleton | ?]; auto.
      * split; [|done]. exists ((full_url, url) :: new).
        split; [by rewrite <- app_assoc |]. by constructor.
    + intros [= <- <-]. split; [|done]. exists []. by rewrite app_nil_r.
Qed.

(** [get_links] leaves the frontier, the counter and the visited set alone,
    calls [requests.get] once, on its argument, and only appends records
    with an external host; the links it returns passed both filters. *)
Lemma get_links_spec url base_url s s' r :
  get_links url base_url s = (s', r) ->
  urls_to_visit s' = urls_to_visit s /\
  total_urls_discovered s' = total_urls_discovered s /\
  visited_urls s' = visited_urls s /\
  (exists new,
     external_links s' = external_links s ++ new /\
     Forall (fun record => external_host base_url record /\ record.2 = url)
       new) /\
  (exists events,
     trace s' = trace s ++ Requested url :: events /\
     requests events = [] /\ reports events = []) /\
  (forall new_links, r = Some new_links ->
     forall x, x ∈ new_links -> passes_filters x).
Proof.
  unfold get_links.
  destruct (requests_get url) as [|status_code content_type hrefs];
    [|destruct (raise_for_status status_code)].
  - intros [= <- <-]. simpl. split_and!; auto.
    + exists []. by rewrite app_nil_r.
    + exists [Error url]. by rewrite <- app_assoc.
    + by intros ? [= <-] x ?%not_elem_of_empty.
  - intros [= <- <-]. simpl. split_and!; auto.
    + exists []. by rewrite app_nil_r.
    + exists [Error url]. by rewrite <- app_assoc.
    + by intros ? [= <-] x ?%not_elem_of_empty.
  - destruct (Str.contains content_type "text/html"); cbn [negb].
    + destruct (scan_hrefs url base_url hrefs ∅
                  (external_links (emit (Requested url) s)))
        as [links' r'] eqn:Hscan.
      intros [= <- <-]. apply scan_hrefs_spec in Hscan as [Hnew Hint].
      simpl. split_and!; auto.
      * by exists [].
      * intros new_links -> x Hx.
        by destruct (Hint new_links eq_refl x Hx) as [?%not_elem_of_empty | ?].
    + intros [= <- <-]. simpl. split_and!; auto.
      * exists []. by rewrite app_nil_r.
      * exists [Warning url]. by rewrite <- app_assoc.
      * by intros ? [= <-] x ?%not_elem_of_empty.
Qed.

(** The links that the loop collects do not depend on the records already
    in [external_links]. *)
Lemma scan_href_internal url base_url internal links links0 href :
  fst <$> scan_href url base_url (internal, links) href
  = fst <$> scan_href url base_url (internal, links0) href.
Proof.
  unfold scan_href.
  destruct (urljoin url href) as [full_url|]; cbn [mbind option_bind]; [|done].
  destruct (should_skip_url full_url) as [[|]|];
    cbn [mbind option_bind]; [done | | done].
  destruct (is_valid_landing_page full_url); cbn [negb]; [|done].
  destruct (urlparse full_url) as [parsed|]; cbn [mbind option_bind]; [|done].
  destruct (urlparse base_url) as [parsed_base|];
    cbn [mbind option_bind]; [|done].
  destruct (String.eqb (netloc parsed) (netloc parsed_base)); [done |].
  by destruct (Str.startswith full_url "http").
Qed.

Lemma scan_hrefs_internal url base_url hrefs internal links links0 :
  (scan_hrefs url base_url hrefs internal links).2
  = (scan_hrefs url base_url hrefs internal links0).2.
Proof.
  revert internal links links0.
  induction hrefs as [|href hrefs IH]; intros internal links links0;
    cbn [scan_hrefs]; [done |].
  pose proof (scan_href_internal url base_url internal links links0 href)
    as Hfst.
  destruct (scan_href url base_url (internal, links) href) as [[i l]|],
    (scan_href url base_url (internal, links0) href) as [[i0 l0]|];
    simpl in Hfst; try done.
  injection Hfst as ->. apply IH.
Qed.

(** The set that [get_links] returns depends on its arguments and on the
    site only. *)
Lemma get_links_result url base_url s s0 :
  (get_links url base_url s).2 = (get_links url base_url s0).2.
Proof.
  unfold get_links.
  destruct (requests_get url) as [|status_code content_type hrefs]; [done |].
  destruct (raise_for_status status_code); [done |].
  destruct (Str.contains content_type "text/html"); cbn [negb]; [|done].
  pose proof (scan_hrefs_internal url base_url hrefs ∅
                (external_links (emit (Requested url) s))
                (external_links (emit (Requested url) s0))) as Heq.
  destruct (scan_hrefs url base_url hrefs ∅
              (external_links (emit (Requested url) s))),
    (scan_hrefs url base_url hrefs ∅
       (external_links (emit (Requested url) s0))).
  done.
Qed.

End ExtractionFacts.

(** ** The crawl loop *)

Lemma size_remove (X : gset string) (u : string) :
  u ∈ X -> size X = S (size (X ∖ {[u]})).
Proof.
  intros Hu. rewrite (union_difference_singleton_L u X) at 1 by done.
  rewrite size_union, size_singleton by set_solver. lia.
Qed.

Section LoopFacts.

Context `{W : !World}.

Implicit Types (start_url u : string) (s : state) (r : run).

(** Everything one iteration does, for the popped element [u]: the visited
    set gains [u]; the frontier loses [u] and gains a set [added] of
    filtered links of the page, none of them visited or pending; the
    counter grows by the size of [added]; records with an external host
    are appended; [requests.get] is called on [u] alone, and only when [u]
    was not visited. *)
Lemma loop_body_effect start_url u s :
  exists added new events,
    visited_urls (state_of (loop_body start_url u s))
      = {[u]} ∪ visited_urls s /\
    urls_to_visit (state_of (loop_body start_url u s))
      = (urls_to_visit s ∖ {[u]}) ∪ added /\
    added ## {[u]} ∪ visited_urls s /\
    added ## urls_to_visit s ∖ {[u]} /\
    (forall x, x ∈ added ->
       passes_filters x /\
       exists s0 s1 new_links,
         get_links u start_url s0 = (s1, Some new_links) /\ x ∈ new_links) /\
    total_urls_discovered (state_of (loop_body start_url u s))
      = total_urls_discovered s + size added /\
    external_links (state_of (loop_body start_url u s))
      = external_links s ++ new /\
    Forall (fun record => external_host start_url record /\ record.2 = u)
      new /\
    trace (state_of (loop_body start_url u s)) = trace s ++ events /\
    (requests events = [] \/ requests events = [u] /\ u ∉ visited_urls s) /\
    (u ∉ visited_urls s -> total_urls_discovered s <> 0 ->
     requests events = [u] /\
     reports events = [progress_value (mark_visited u s)]) /\
    (u ∈ visited_urls s -> events = [] /\ new = [] /\ added = ∅).
Proof.
  unfold loop_body. case_bool_decide as Hu.
  - exists ∅, [], []. simpl. rewrite !app_nil_r.
    split_and!; auto; try done; set_solver.
  - destruct (total_urls_discovered (mark_visited u s)) as [|n] eqn:Htotal.
    { exists ∅, [], []. simpl in *. rewrite !app_nil_r.
      split_and!; auto; try done; set_solver. }
    set (s1 := emit (Status u) (emit (Progress _) (mark_visited u s))).
    destruct (get_links u start_url s1) as [s2 [new_links|]] eqn:Hget.
    + pose proof (get_links_spec _ _ _ _ _ Hget)
        as (HF & HT & HV & (new & HE & Hnew) & (events & Htr & Hreq & Hrep)
            & Hpass).
      assert (requests (events ++ [Sleep]) = []) as Hreq'
        by (unfold requests in *; by rewrite omap_app, Hreq).
      assert (reports (events ++ [Sleep]) = []) as Hrep'
        by (unfold reports in *; by rewrite omap_app, Hrep).
      exists (new_links ∖ visited_urls s2 ∖ urls_to_visit s2), new,
        ([Progress (progress_value (mark_visited u s)); Status u]
           ++ Requested u :: events ++ [Sleep]).
      simpl. rewrite HF, HT, HV, HE, Htr. simpl. rewrite Hreq', Hrep'.
      split_and!; auto.
      * set_solver.
      * set_solver.
      * intros x Hx. split; [apply (Hpass new_links eq_refl); set_solver |].
        exists s1, s2, new_links. split; [done | set_solver].
      * by rewrite <- !app_assoc.
      * done.
    + pose proof (get_links_spec _ _ _ _ _ Hget)
        as (HF & HT & HV & (new & HE & Hnew) & (events & Htr & Hreq & Hrep)
            & _).
      exists ∅, new,
        ([Progress (progress_value (mark_visited u s)); Status u]
           ++ Requested u :: events).
      simpl. rewrite HF, HT, HV, HE, Htr. simpl. rewrite Hreq, Hrep.
      split_and!; auto.
      * set_solver.
      * set_solver.
      * set_solver.
      * set_solver.
      * by rewrite <- !app_assoc.
      * done.
Qed.

(** Taking the first of the elements is a choice that [set.pop()] may
    make. *)
Lemma pop_first_choice : pop_choice pop_first.
Proof.
  intros f. unfold pop_first.
  destruct (elements f) as [|u l] eqn:Hl; simpl.
  - by apply elements_empty_iff, leibniz_equiv in Hl.
  - apply elem_of_elements. rewrite Hl. by left.
Qed.

(** A step is an iteration for some member of the frontier. *)
Lemma step_inv start_url r r' :
  step start_url r r' ->
  exists s u,
    r = Running s /\ u ∈ urls_to_visit s /\ r' = loop_body start_url u s.
Proof. intros [s u Hu]. eauto. Qed.

(** After the first iteration the frontier and the visited set are
    disjoint; before it the frontier is the seed alone. *)
Lemma reachable_disjoint start_url visited links r :
  reachable start_url visited links r ->
  urls_to_visit (state_of r) = {[start_url]} \/
  urls_to_visit (state_of r) ## visited_urls (state_of r).
Proof.
  unfold reachable. revert r. apply rtc_ind_r.
  - by left.
  - intros r r' _ Hstep IH. right.
    apply step_inv in Hstep as (s & u & -> & Hu & ->).
    destruct (loop_body_effect start_url u s)
      as (added & _ & _ & -> & -> & HaV & HaF & _).
    simpl in IH. destruct IH as [IH | IH]; [|set_solver].
    rewrite IH in *. set_solver.
Qed.

(** C1. After every iteration of the crawl loop, in every run, the frontier
    [urls_to_visit] and [visited_urls] are disjoint (and before the first
    iteration too, when the seed is not visited at the call, as after the
    [clear()] of the application).  The iteration that pops [u] replaces
    the frontier by itself without [u], together with links from which
    every element of the visited set and of the frontier was removed. *)
Theorem frontier_visited_disjoint start_url visited links r r' :
  reachable start_url visited links r ->
  step start_url r r' ->
  urls_to_visit (state_of r') ## visited_urls (state_of r') /\
  (start_url ∉ visited ->
   urls_to_visit (state_of r) ## visited_urls (state_of r)) /\
  exists u new_links,
    u ∈ urls_to_visit (state_of r) /\
    visited_urls (state_of r') = {[u]} ∪ visited_urls (state_of r) /\
    urls_to_visit (state_of r')
    = (urls_to_visit (state_of r) ∖ {[u]})
      ∪ (new_links ∖ visited_urls (state_of r')
           ∖ (urls_to_visit (state_of r) ∖ {[u]})).
Proof.
  intros Hr Hstep. split_and!.
  - apply step_inv in Hstep as (s & u & -> & Hu & ->).
    destruct (loop_body_effect start_url u s)
      as (added & _ & _ & -> & -> & HaV & HaF & _).
    destruct (reachable_disjoint _ _ _ _ Hr) as [Hseed | Hdisj]; simpl in *.
    + rewrite Hseed in *. set_solver.
    + set_solver.
  - intros Hseed. unfold reachable in Hr.
    destruct (reachable_disjoint _ _ _ _ Hr) as [Hfirst | ?]; [|done].
    apply rtc_inv_r in Hr as [<- | (r0 & Hr0 & Hstep0)].
    + simpl. set_solver.
    + apply step_inv in Hstep0 as (s0 & u0 & -> & Hu0 & ->).
      destruct (loop_body_effect start_url u0 s0)
        as (added & _ & _ & -> & -> & HaV & HaF & _).
      destruct (reachable_disjoint _ _ _ _ Hr0) as [Hseed0 | Hdisj];
        simpl in *.
      * rewrite Hseed0 in *. set_solver.
      * set_solver.
  - apply step_inv in Hstep as (s & u & -> & Hu & ->).
    destruct (loop_body_effect start_url u s)
      as (added & _ & _ & HV & HF & HaV & HaF & _).
    exists u, added. simpl. rewrite HV, HF. split_and!; auto.
    f_equal. set_solver.
Qed.

(** Every URL that was requested is in the visited set, and none was
    requested twice. *)
Lemma reachable_requests start_url visited links r :
  reachable start_url visited links r ->
  (forall x, x ∈ requests (trace (state_of r)) ->
     x ∈ visited_urls (state_of r)) /\
  NoDup (requests (trace (state_of r))).
Proof.
  unfold reachable. revert r. apply rtc_ind_r.
  - simpl. split; [by intros x ?%elem_of_nil | constructor].
  - intros r r' _ Hstep [IHin IHnd].
    apply step_inv in Hstep as (s & u & -> & Hu & ->).
    destruct (loop_body_effect start_url u s)
      as (_ & _ & events & -> & _ & _ & _ & _ & _ & _ & _ & -> & Hreq & _).
    simpl in *. unfold requests in *. rewrite omap_app.
    destruct Hreq as [-> | [-> Hfresh]].
    + rewrite app_nil_r. split; [|done].
      intros x Hx. apply elem_of_union_r. auto.
    + split.
      * intros x [Hx | ->%list_elem_of_singleton]%elem_of_app.
        -- apply elem_of_union_r. auto.
        -- apply elem_of_union_l. set_solver.
      * apply NoDup_app. split_and!; [done | | apply NoDup_singleton].
        intros x Hx ->%list_elem_of_singleton. auto.
Qed.

(** C2. No URL is fetched twice in a run: the list of the URLs on which
    [requests.get] was called never holds a duplicate.  An iteration never
    removes a URL from [visited_urls], and it calls [get_links] (hence
    [requests.get]) at most once, on the popped URL, and only if that URL
    was not in [visited_urls] before. *)
Theorem no_url_fetched_twice start_url visited links r :
  reachable start_url visited links r ->
  NoDup (requests (trace (state_of r))) /\
  forall r',
    step start_url r r' ->
    visited_urls (state_of r) ⊆ visited_urls (state_of r') /\
    exists u,
      u ∈ urls_to_visit (state_of r) /\
      (requests (trace (state_of r')) = requests (trace (state_of r)) \/
       requests (trace (state_of r')) = requests (trace (state_of r)) ++ [u]
       /\ u ∉ visited_urls (state_of r)).
Proof.
  intros Hr. split; [by apply (reachable_requests _ _ _ _ Hr) |].
  intros r' Hstep. apply step_inv in Hstep as (s & u & -> & Hu & ->).
  destruct (loop_body_effect start_url u s)
    as (_ & _ & events & -> & _ & _ & _ & _ & _ & _ & _ & -> & Hreq & _).
  simpl. split; [set_solver |]. exists u. split; [done |].
  unfold requests in *. rewrite omap_app.
  destruct Hreq as [-> | [-> Hfresh]]; [left | right]; by rewrite ?app_nil_r.
Qed.

(** C3. Every record that a run appends to [external_links] holds a URL
    whose netloc differs from the netloc of the seed URL: the list is the
    one at the call followed by such records only. *)
Theorem external_links_have_external_host start_url visited links r :
  reachable start_url visited links r ->
  exists appended,
    external_links (state_of r) = links ++ appended /\
    Forall (external_host start_url) appended.
Proof.
  unfold reachable. revert r. apply rtc_ind_r.
  - exists []. simpl. by rewrite app_nil_r.
  - intros r r' _ Hstep (appended & IH & Hext).
    apply step_inv in Hstep as (s & u & -> & Hu & ->).
    destruct (loop_body_effect start_url u s)
      as (_ & new & _ & _ & _ & _ & _ & _ & _ & -> & Hnew & _).
    simpl in IH. rewrite IH. exists (appended ++ new).
    split; [by rewrite app_assoc |].
    apply Forall_app. split; [done |].
    eapply Forall_impl; [exact Hnew |]. by intros record [? _].
Qed.

(** Only the seed can be in the frontier without having passed the
    filters. *)
Lemma reachable_filtered start_url visited links r :
  reachable start_url visited links r ->
  forall x, x ∈ urls_to_visit (state_of r) ->
    x = start_url \/ passes_filters x.
Proof.
  unfold reachable. revert r.
  apply (rtc_ind_r (fun r => forall x, x ∈ urls_to_visit (state_of r) ->
                       x = start_url \/ passes_filters x)).
  - simpl. intros x ->%elem_of_singleton. by left.
  - intros r r' _ Hstep IH.
    apply step_inv in Hstep as (s & u & -> & Hu & ->).
    destruct (loop_body_effect start_url u s)
      as (added & _ & _ & _ & -> & _ & _ & Hadded & _).
    intros x [Hx | Hx]%elem_of_union.
    + apply IH. simpl. set_solver.
    + right. by apply Hadded.
Qed.

(** The first iteration of a crawl pops the seed, and fetches it whatever
    it looks like. *)
Lemma seed_fetched root_url r :
  step root_url (Running (start_crawl root_url)) r ->
  r = loop_body root_url root_url (start_crawl root_url) /\
  root_url ∈ visited_urls (state_of r) /\
  requests (trace (state_of r)) = [root_url].
Proof.
  intros (s & u & [= <-] & Hu & ->)%step_inv.
  simpl in Hu. apply elem_of_singleton in Hu as ->. split; [done |].
  destruct (loop_body_effect root_url root_url (start_crawl root_url))
    as (_ & _ & events & -> & _ & _ & _ & _ & _ & _ & _ & -> & _ & Hreq & _).
  split; [set_solver |]. simpl.
  destruct Hreq as [-> _]; [set_solver | | done].
  unfold start_crawl, crawl_website_entry. cbn [total_urls_discovered].
  by rewrite size_singleton.
Qed.

(** C10. In every run each URL of the frontier other than the seed has
    passed both filters: [should_skip_url] is false for it and
    [is_valid_landing_page] is true.  The seed is not filtered: whatever
    the seed, the first iteration of a crawl pops it, adds it to
    [visited_urls] and requests it. *)
Theorem frontier_filtered_but_seed start_url visited links r :
  reachable start_url visited links r ->
  (forall x, x ∈ urls_to_visit (state_of r) ->
     x <> start_url ->
     should_skip_url x = Some false /\ is_valid_landing_page x = true) /\
  (forall root_url,
     step root_url (Running (start_crawl root_url))
       (loop_body root_url root_url (start_crawl root_url)) /\
     forall r1,
       step root_url (Running (start_crawl root_url)) r1 ->
       root_url ∈ visited_urls (state_of r1) /\
       requests (trace (state_of r1)) = [root_url]).
Proof.
  intros Hr. split.
  - intros x Hx Hne.
    by destruct (reachable_filtered _ _ _ _ Hr x Hx) as [? | ?].
  - intros root_url. split.
    + constructor. simpl. set_solver.
    + intros r1 Hstep. by apply seed_fetched in Hstep as (_ & ? & ?).
Qed.

(** In a crawl started with an empty visited set the counter is the number
    of URLs visited or pending. *)
Lemma reachable_counter root_url links r :
  reachable root_url ∅ links r ->
  urls_to_visit (state_of r) ## visited_urls (state_of r) /\
  total_urls_discovered (state_of r)
  = size (visited_urls (state_of r)) + size (urls_to_visit (state_of r)).
Proof.
  unfold reachable. revert r. apply rtc_ind_r.
  - cbn [state_of crawl_website_entry urls_to_visit visited_urls
           total_urls_discovered].
    split; [set_solver | by rewrite size_empty].
  - intros r r' _ Hstep [IHd IHc].
    apply step_inv in Hstep as (s & u & -> & Hu & ->).
    destruct (loop_body_effect root_url u s)
      as (added & _ & _ & -> & -> & HaV & HaF & _ & -> & _).
    simpl in *. split; [set_solver |].
    rewrite IHc, !size_union, size_singleton by set_solver.
    rewrite (union_difference_singleton_L u (urls_to_visit s)) at 1 by done.
    rewrite size_union, size_singleton by set_solver. lia.
Qed.

(** The state at the report point, for a URL that is pending. *)
Lemma mark_visited_counter root_url links s u :
  reachable root_url ∅ links (Running s) ->
  u ∈ urls_to_visit s ->
  (u ∉ visited_urls s) /\
  (urls_to_visit (mark_visited u s) ## visited_urls (mark_visited u s)) /\
  total_urls_discovered (mark_visited u s)
  = size (visited_urls (mark_visited u s))
    + size (urls_to_visit (mark_visited u s)).
Proof.
  intros [Hd Hc]%reachable_counter Hu. simpl in *.
  split; [set_solver |]. split; [set_solver |].
  rewrite Hc, size_union, size_singleton by set_solver.
  rewrite (union_difference_singleton_L u (urls_to_visit s)) at 1 by done.
  rewrite size_union, size_singleton by set_solver. lia.
Qed.

(** The progress reports of an iteration that pops a pending URL of a
    crawl. *)
Lemma progress_reported root_url links s u :
  reachable root_url ∅ links (Running s) ->
  u ∈ urls_to_visit s ->
  let m := mark_visited u s in
  total_urls_discovered m = size (visited_urls m) + size (urls_to_visit m) /\
  size (visited_urls m) + size (urls_to_visit m)
  = size (visited_urls m ∪ urls_to_visit m) /\
  reports (trace (state_of (loop_body root_url u s)))
  = reports (trace s)
    ++ [Z.of_nat (size (visited_urls m))
        # Pos.of_nat (size (visited_urls m ∪ urls_to_visit m))].
Proof.
  intros Hr Hu m.
  destruct (mark_visited_counter _ _ _ _ Hr Hu) as (Hfresh & Hd & Hc).
  fold m in Hd, Hc. split; [done |].
  split; [by rewrite size_union by set_solver |].
  destruct (loop_body_effect root_url u s)
    as (_ & _ & events & _ & _ & _ & _ & _ & _ & _ & _ & -> & _ & Hrep & _).
  destruct Hrep as [_ Hrep]; [done | |].
  { apply reachable_counter in Hr as [_ Hc0]. simpl in Hc0.
    rewrite Hc0, (union_difference_singleton_L u (urls_to_visit s)) by done.
    rewrite size_union, size_singleton by set_solver. lia. }
  unfold reports in *. rewrite omap_app, Hrep. unfold progress_value.
  fold m. by rewrite Hc, size_union by set_solver.
Qed.




End LoopFacts.

(** ** Termination *)

Section Termination.

Context `{W : !World}.

(** The seed and a finite set [universe] of URLs that holds it and every
    link that [get_links] returns for one of its members. *)
Variable start_url : string.
Variable universe : gset string.
Hypothesis seed_in_universe : start_url ∈ universe.
Hypothesis universe_closed :
  forall u s s' new_links,
    u ∈ universe ->
    get_links u start_url s = (s', Some new_links) ->
    new_links ⊆ universe.

(** What is left to do: the URLs of the universe not yet visited, and the
    visited URLs still in the frontier. *)
Definition remaining (s : state) : nat :=
  size (universe ∖ visited_urls s)
  + size (urls_to_visit s ∩ visited_urls s).

(** An iteration keeps the frontier in the universe and lowers [remaining]
    by one. *)
Lemma loop_body_remaining u s :
  urls_to_visit s ⊆ universe ->
  u ∈ urls_to_visit s ->
  urls_to_visit (state_of (loop_body start_url u s)) ⊆ universe /\
  remaining s = S (remaining (state_of (loop_body start_url u s))).
Proof.
  intros Hsub Hu.
  destruct (loop_body_effect start_url u s)
    as (added & new & events & HV & HF & HaV & HaF & Hadded & _ & _ & _ & _
        & _ & _ & Hold).
  assert (added ⊆ universe) as Hadd.
  { intros x Hx. destruct (Hadded x Hx) as (_ & s0 & s1 & new_links & Hget & ?).
    eapply universe_closed; [|exact Hget|done]. set_solver. }
  unfold remaining. rewrite HV, HF. split; [set_solver |].
  destruct (decide (u ∈ visited_urls s)) as [Hin | Hout].
  - destruct (Hold Hin) as (_ & _ & Hnone). clear Hold. subst added.
    rewrite (size_remove (urls_to_visit s ∩ visited_urls s) u)
      by set_solver.
    replace ({[u]} ∪ visited_urls s) with (visited_urls s) by set_solver.
    replace ((urls_to_visit s ∖ {[u]} ∪ ∅) ∩ visited_urls s)
      with ((urls_to_visit s ∩ visited_urls s) ∖ {[u]}) by set_solver.
    lia.
  - rewrite (size_remove (universe ∖ visited_urls s) u) by set_solver.
    replace (universe ∖ ({[u]} ∪ visited_urls s))
      with (universe ∖ visited_urls s ∖ {[u]}) by set_solver.
    replace ((urls_to_visit s ∖ {[u]} ∪ added) ∩ ({[u]} ∪ visited_urls s))
      with (urls_to_visit s ∩ visited_urls s) by set_solver.
    lia.
Qed.

Lemma step_remaining s r :
  urls_to_visit s ⊆ universe ->
  step start_url (Running s) r ->
  urls_to_visit (state_of r) ⊆ universe /\
  remaining s = S (remaining (state_of r)).
Proof.
  intros Hsub (s0 & u & [= <-] & Hu & ->)%step_inv.
  by apply loop_body_remaining.
Qed.

(** A run of [n] iterations has lowered [remaining] by [n]. *)
Lemma nsteps_remaining n s r :
  urls_to_visit s ⊆ universe ->
  nsteps (step start_url) n (Running s) r ->
  remaining s = n + remaining (state_of r).
Proof.
  intros Hsub Hrun. remember (Running s) as r0 eqn:Hr0.
  revert s Hsub Hr0. induction Hrun as [r0 | n r0 r1 r2 Hstep Hrun IH];
    intros s Hsub ->.
  - done.
  - destruct (step_remaining _ _ Hsub Hstep) as [Hsub1 Hdec].
    pose proof Hstep as (s0 & u & _ & _ & Hr1)%step_inv.
    destruct r1 as [s1 | s1].
    + rewrite Hdec. simpl in *. by rewrite (IH s1 Hsub1 eq_refl).
    + inversion Hrun as [| ? ? ? ? Hbad]; subst; [by rewrite Hdec |].
      inversion Hbad.
Qed.

(** No run goes on forever. *)
Lemma remaining_sn n s :
  urls_to_visit s ⊆ universe -> remaining s = n ->
  sn (step start_url) (Running s).
Proof.
  revert s. induction n as [|n IH]; intros s Hsub Hn; constructor;
    intros r Hstep; simpl in Hstep;
    destruct (step_remaining _ _ Hsub Hstep) as [Hsub1 Hdec]; [lia |].
  destruct r as [s1 | s1].
  - apply IH; [done | simpl in *; lia].
  - constructor. intros r' Hbad. inversion Hbad.
Qed.

(** The loop run with a choice of the popped elements follows the step
    relation to the exit of the loop. *)
Lemma while_loop_sound pop fuel s r :
  pop_choice pop ->
  while_loop pop fuel start_url s = Some r ->
  rtc (step start_url) (Running s) r /\ finished r.
Proof.
  intros Hpop.
  assert (forall s, urls_to_visit s = ∅ ->
            rtc (step start_url) (Running s) (Running s)
            /\ finished (Running s)) as Hexit by (by split).
  revert s. induction fuel as [|fuel IH]; intros s;
    cbn [while_loop]; case_bool_decide as Hempty.
  - intros [= <-]. by apply Hexit.
  - done.
  - intros [= <-]. by apply Hexit.
  - pose proof (Hpop (urls_to_visit s)) as Hu.
    destruct (pop (urls_to_visit s)) as [u|]; [|done].
    destruct (loop_body start_url u s) as [s1 | s1] eqn:Hbody.
    + intros Hrest. destruct (IH s1 Hrest) as [Hrun Hfin]. split; [|done].
      eapply rtc_l; [|exact Hrun]. rewrite <- Hbody. by constructor.
    + intros [= <-]. split; [|done].
      apply rtc_once. rewrite <- Hbody. by constructor.
Qed.

(** With as much fuel as there is left to do, it reaches the exit. *)
Lemma while_loop_returns pop fuel s :
  pop_choice pop ->
  urls_to_visit s ⊆ universe ->
  remaining s <= fuel ->
  is_Some (while_loop pop fuel start_url s).
Proof.
  intros Hpop. revert s. induction fuel as [|fuel IH]; intros s Hsub Hfuel;
    cbn [while_loop]; case_bool_decide as Hempty; try done;
    pose proof (Hpop (urls_to_visit s)) as Hu;
    destruct (pop (urls_to_visit s)) as [u|]; try done;
    destruct (loop_body_remaining u s Hsub Hu) as [Hsub1 Hdec]; [lia |].
  destruct (loop_body start_url u s) as [s1 | s1]; [|done].
  apply IH; [done | simpl in *; lia].
Qed.

Lemma remaining_entry visited links :
  remaining (crawl_website_entry start_url visited links) <= size universe.
Proof.
  unfold remaining. simpl.
  assert (size (universe ∖ visited) <= size universe) as Hle
    by (apply subseteq_size; set_solver).
  destruct (decide (start_url ∈ visited)) as [Hin | Hout].
  - replace ({[start_url]} ∩ visited) with ({[start_url]} : gset string)
      by set_solver.
    rewrite size_singleton, (size_remove universe start_url) by done.
    assert (size (universe ∖ visited) <= size (universe ∖ {[start_url]}))
      by (apply subseteq_size; set_solver).
    lia.
  - replace ({[start_url]} ∩ visited) with (∅ : gset string) by set_solver.
    rewrite size_empty. lia.
Qed.

(** An iteration is aborted by the division, when the counter is zero, or
    by a [ValueError] that leaves [get_links]; the popped URL is visited by
    then and the frontier has lost it only. *)
Lemma loop_body_aborted u s s' :
  loop_body start_url u s = Aborted s' ->
  (u ∉ visited_urls s) /\
  u ∈ visited_urls s' /\
  urls_to_visit s' = urls_to_visit s ∖ {[u]} /\
  (total_urls_discovered s = 0 \/
   forall s0, (get_links u start_url s0).2 = None).
Proof.
  unfold loop_body. case_bool_decide as Hu; [done |].
  cbn [mark_visited set_visited_urls set_urls_to_visit total_urls_discovered].
  destruct (total_urls_discovered s) as [|n] eqn:Htotal.
  { intros [= <-]. simpl. split_and!; [done | set_solver | done | by left]. }
  fold (mark_visited u s).
  set (s1 := emit (Status u) (emit (Progress _) (mark_visited u s))).
  pose proof (fun s0 => get_links_result u start_url s0 s1) as Hres.
  destruct (get_links u start_url s1) as [s2 [new_links|]] eqn:Hget; [done |].
  pose proof (get_links_spec _ _ _ _ _ Hget) as (HF & _ & HV & _).
  intros [= <-]. rewrite HF, HV. simpl.
  split_and!; [done | set_solver | done | right; intros s0; by rewrite Hres].
Qed.

(** The exit of the loop: the frontier is empty, or a page of the universe
    has been visited whose links [get_links] could not resolve or parse. *)
Lemma while_loop_exit pop fuel s r :
  pop_choice pop ->
  urls_to_visit s ⊆ universe ->
  total_urls_discovered s <> 0 ->
  while_loop pop fuel start_url s = Some r ->
  match r with
  | Running s' => urls_to_visit s' = ∅
  | Aborted s' =>
      exists u,
        u ∈ universe /\ u ∈ visited_urls s' /\
        forall s0, (get_links u start_url s0).2 = None
  end.
Proof.
  intros Hpop. revert s. induction fuel as [|fuel IH]; intros s Hsub Hpos;
    cbn [while_loop]; case_bool_decide as Hempty.
  - by intros [= <-].
  - done.
  - by intros [= <-].
  - pose proof (Hpop (urls_to_visit s)) as Hu.
    destruct (pop (urls_to_visit s)) as [u|]; [|done].
    destruct (loop_body_remaining u s Hsub Hu) as [Hsub1 _].
    destruct (loop_body_effect start_url u s)
      as (added & new & events & _ & _ & _ & _ & _ & HT & _).
    destruct (loop_body start_url u s) as [s1 | s1] eqn:Hbody.
    + intros Hrest. apply (IH s1); [done | simpl in HT; lia | done].
    + intros [= <-].
      apply loop_body_aborted in Hbody as (_ & Hv & _ & [Hzero | Hnone]);
        [done |].
      exists u. split_and!; [by apply Hsub | done | done].
Qed.

(** C4, amended. Over a finite universe of URLs the crawl loop terminates:
    no run is infinite, a run has at most as many iterations as the
    universe has URLs, and [crawl_website], whatever elements its pops
    choose, returns within that many iterations, at the end of one of the
    runs.  A run ends in one of two ways.  The loop stops of itself exactly
    when the frontier is empty, whatever the number of URLs or their depth:
    a state in the loop has a next iteration, for each member of its
    frontier, as long as the frontier is not empty.  Or a [ValueError] that
    [urljoin] or [urlparse] raises on a link of a page leaves [get_links],
    which catches [RequestException] only, and [crawl_website]: the run
    ends there, with the URLs that are pending at that point unvisited.
    Where no page of the universe raises so, every run ends with an empty
    frontier.  An iteration either removes a visited URL from the frontier
    and leaves the visited set as it is, or adds a URL that was not visited
    to the visited set. *)
Theorem crawl_terminates visited links :
  sn (step start_url)
    (Running (crawl_website_entry start_url visited links)) /\
  (forall n r,
     nsteps (step start_url) n
       (Running (crawl_website_entry start_url visited links)) r ->
     n <= size universe) /\
  (forall pop,
     pop_choice pop ->
     exists r,
       crawl_website pop (size universe) start_url visited links = Some r /\
       reachable start_url visited links r /\
       nf (step start_url) r /\
       match r with
       | Running s => urls_to_visit s = ∅
       | Aborted s =>
           exists u,
             u ∈ universe /\ u ∈ visited_urls s /\
             forall s0, (get_links u start_url s0).2 = None
       end) /\
  ((forall u s0, u ∈ universe -> (get_links u start_url s0).2 <> None) ->
   forall pop,
     pop_choice pop ->
     exists s,
       crawl_website pop (size universe) start_url visited links
       = Some (Running s) /\
       urls_to_visit s = ∅) /\
  (forall s, nf (step start_url) (Running s) <-> urls_to_visit s = ∅) /\
  (forall s, nf (step start_url) (Aborted s)) /\
  (forall s u,
     u ∈ urls_to_visit s ->
     step start_url (Running s) (loop_body start_url u s) /\
     (u ∈ visited_urls s /\
      visited_urls (state_of (loop_body start_url u s)) = visited_urls s /\
      urls_to_visit (state_of (loop_body start_url u s))
      = urls_to_visit s ∖ {[u]}
      \/
      (u ∉ visited_urls s) /\
      visited_urls (state_of (loop_body start_url u s))
      = {[u]} ∪ visited_urls s)).
Proof.
  assert (urls_to_visit (crawl_website_entry start_url visited links)
          ⊆ universe) as Hsub by (simpl; set_solver).
  pose proof (remaining_entry visited links) as Hentry.
  assert (forall s, nf (step start_url) (Running s) <-> urls_to_visit s = ∅)
    as Hnf.
  { intros s. unfold nf, red. split.
    - intros Hnf.
      destruct (set_choose_or_empty (urls_to_visit s)) as [[u Hu] | Hempty];
        [|by apply leibniz_equiv].
      destruct Hnf. exists (loop_body start_url u s). by constructor.
    - intros Hempty [r (s0 & u & [= <-] & Hu & _)%step_inv].
      rewrite Hempty in Hu. set_solver. }
  assert (forall s, nf (step start_url) (Aborted s)) as Hnf'.
  { intros s [r (s0 & u & [=] & _)%step_inv]. }
  assert (forall pop,
            pop_choice pop ->
            exists r,
              crawl_website pop (size universe) start_url visited links
              = Some r /\
              reachable start_url visited links r /\
              nf (step start_url) r /\
              match r with
              | Running s => urls_to_visit s = ∅
              | Aborted s =>
                  exists u,
                    u ∈ universe /\ u ∈ visited_urls s /\
                    forall s0, (get_links u start_url s0).2 = None
              end) as Hexit.
  { intros pop Hpop. unfold crawl_website.
    destruct (while_loop_returns pop (size universe) _ Hpop Hsub Hentry)
      as [r Hr].
    exists r. split; [done |].
    destruct (while_loop_sound pop (size universe) _ _ Hpop Hr) as [Hrun _].
    split; [done |].
    apply (while_loop_exit pop (size universe)) in Hr;
      [|done | done
       |cbn [crawl_website_entry total_urls_discovered];
        by rewrite size_singleton].
    split; [|done]. destruct r as [s | s]; [by apply Hnf | apply Hnf']. }
  split_and!.
  - by eapply remaining_sn.
  - intros n r Hrun. pose proof (nsteps_remaining _ _ _ Hsub Hrun). lia.
  - exact Hexit.
  - intros Hparse pop Hpop.
    destruct (Hexit pop Hpop) as ([s | s] & Hr & _ & _ & Hend).
    + by exists s.
    + destruct Hend as (u & Hu & _ & Hnone). by destruct (Hparse u s Hu).
  - exact Hnf.
  - exact Hnf'.
  - intros s u Hu. split; [by constructor |].
    destruct (loop_body_effect start_url u s)
      as (added & new & events & HV & HF & _ & _ & _ & _ & _ & _ & _ & _ & _
          & Hold).
    destruct (decide (u ∈ visited_urls s)) as [Hin | Hout]; [left | right].
    + destruct (Hold Hin) as (_ & _ & Hnone). clear Hold. subst added.
      rewrite HV, HF. split_and!; [done | set_solver | set_solver].
    + by rewrite HV.
Qed.

End Termination.

(** ** Progress reports *)

(** Runs of the small site. *)
Module DemoFacts.

Import Demo.

Lemma r1_running : r1 = Running (state_of r1).
Proof. vm_compute. reflexivity. Qed.

Lemma r2_running : r2 = Running (state_of r2).
Proof. vm_compute. reflexivity. Qed.

Lemma r3_running : r3 = Running (state_of r3).
Proof. vm_compute. reflexivity. Qed.

Lemma step1 : @step site seed (Running s0) r1.
Proof. constructor. vm_compute. reflexivity. Qed.

Lemma step2 : @step site seed r1 r2.
Proof. rewrite r1_running at 1. constructor. vm_compute. reflexivity. Qed.

Lemma step3 : @step site seed r2 r3.
Proof. rewrite r2_running at 1. constructor. vm_compute. reflexivity. Qed.

Lemma reach0 : @reachable site seed ∅ [] (Running s0).
Proof. apply rtc_refl. Qed.

Lemma reach1 : @reachable site seed ∅ [] r1.
Proof. eapply rtc_r; [exact reach0 | exact step1]. Qed.

Lemma reach2 : @reachable site seed ∅ [] r2.
Proof. eapply rtc_r; [exact reach1 | exact step2]. Qed.

Lemma reach3 : @reachable site seed ∅ [] r3.
Proof. eapply rtc_r; [exact reach2 | exact step3]. Qed.

Lemma reports2 : reports (trace (state_of r2)) = [1%Q; 2 # 4].
Proof. vm_compute. reflexivity. Qed.

(** The whole crawl of the small site: every page is visited, and both
    references to the external site are recorded. *)
Example full_crawl :
  exists s,
    @crawl_website site pop_first 4 seed ∅ [] = Some (Running s) /\
    urls_to_visit s = ∅ /\
    visited_urls s = universe /\
    external_links s
    = [("https://b.com", "https://a.com"); ("https://b.com", "https://a.com")].
Proof.
  eexists. split; [vm_compute; reflexivity |].
  repeat split; vm_compute; reflexivity.
Qed.

End DemoFacts.

(** C5. At every progress report of a crawl the counter
    [total_urls_discovered] is the number of visited URLs plus the number of
    pending ones, which is the size of their union, so that the ratio
    reported is |Visited| / |Visited ∪ Frontier|, taken just after the popped
    URL joined the visited set.  The ratio can go down from one report to the
    next: on the small site the first report is 1 and the second 2/4. *)
Theorem progress_estimate :
  (forall (W : World) root_url links s u,
     reachable root_url ∅ links (Running s) ->
     u ∈ urls_to_visit s ->
     let m := mark_visited u s in
     total_urls_discovered m = size (visited_urls m) + size (urls_to_visit m) /\
     size (visited_urls m) + size (urls_to_visit m)
     = size (visited_urls m ∪ urls_to_visit m) /\
     reports (trace (state_of (loop_body root_url u s)))
     = reports (trace s)
       ++ [Z.of_nat (size (visited_urls m))
           # Pos.of_nat (size (visited_urls m ∪ urls_to_visit m))]) /\
  (exists (W : World) root_url r q1 q2,
     reachable root_url ∅ [] r /\
     reports (trace (state_of r)) = [q1; q2] /\
     (q2 < q1)%Q).
Proof.
  split.
  - intros W root_url links s u. apply progress_reported.
  - exists Demo.site, Demo.seed, Demo.r2, 1%Q, (2 # 4)%Q.
    split; [exact DemoFacts.reach2 |]. split; [exact DemoFacts.reports2 |].
    reflexivity.
Qed.

(** ** The theorems at work on the small site *)

Module Witness.

Import Demo DemoFacts.

Lemma frontier_visited_disjoint_witness :
  @reachable site seed ∅ [] r1 /\
  @step site seed r1 r2 /\
  urls_to_visit (state_of r2) ## visited_urls (state_of r2).
Proof.
  split; [exact reach1 |]. split; [exact step2 |].
  exact (proj1 (@frontier_visited_disjoint site seed ∅ [] r1 r2
                  reach1 step2)).
Defined.

Lemma no_url_fetched_twice_witness :
  @reachable site seed ∅ [] r3 /\
  NoDup (requests (trace (state_of r3))).
Proof.
  split; [exact reach3 |].
  exact (proj1 (@no_url_fetched_twice site seed ∅ [] r3 reach3)).
Defined.

Lemma external_links_have_external_host_witness :
  @reachable site seed ∅ [] r1 /\
  exists appended,
    external_links (state_of r1) = [] ++ appended /\
    Forall (@external_host site seed) appended.
Proof.
  split; [exact reach1 |].
  exact (@external_links_have_external_host site seed ∅ [] r1 reach1).
Defined.





Lemma frontier_filtered_but_seed_witness :
  @reachable site seed ∅ [] r1 /\
  forall x, x ∈ urls_to_visit (state_of r1) ->
    x <> seed ->
    @should_skip_url site x = Some false /\ is_valid_landing_page x = true.
Proof.
  split; [exact reach1 |].
  exact (proj1 (@frontier_filtered_but_seed site seed ∅ [] r1 reach1)).
Defined.

Lemma home_links :
  (@get_links site "https://a.com" seed s0).2
  = Some {[ "https://a.com/p2"; "https://a.com/p3"; "https://a.com/p4" ]}.
Proof. vm_compute. reflexivity. Qed.

Lemma p2_links : (@get_links site "https://a.com/p2" seed s0).2 = Some ∅.
Proof. vm_compute. reflexivity. Qed.

Lemma p3_links : (@get_links site "https://a.com/p3" seed s0).2 = Some ∅.
Proof. vm_compute. reflexivity. Qed.

Lemma p4_links : (@get_links site "https://a.com/p4" seed s0).2 = Some ∅.
Proof. vm_compute. reflexivity. Qed.

Lemma demo_universe_closed :
  forall u s s' new_links,
    u ∈ universe ->
    @get_links site u seed s = (s', Some new_links) ->
    new_links ⊆ universe.
Proof.
  intros u s s' new_links Hu Hget.
  assert ((@get_links site u seed s0).2 = Some new_links) as Hs0
    by (by rewrite (get_links_result u seed s0 s), Hget).
  unfold universe in *.
  repeat (apply elem_of_union in Hu as [Hu | Hu]);
    apply elem_of_singleton in Hu as ->.
  - rewrite home_links in Hs0. apply (inj Some) in Hs0 as <-. compute_done.
  - rewrite p2_links in Hs0. apply (inj Some) in Hs0 as <-. compute_done.
  - rewrite p3_links in Hs0. apply (inj Some) in Hs0 as <-. compute_done.
  - rewrite p4_links in Hs0. apply (inj Some) in Hs0 as <-. compute_done.
Qed.

Lemma demo_links_parse :
  forall u s, u ∈ universe -> (@get_links site u seed s).2 <> None.
Proof.
  intros u s Hu. rewrite (get_links_result u seed s s0).
  unfold universe in Hu.
  repeat (apply elem_of_union in Hu as [Hu | Hu]);
    apply elem_of_singleton in Hu as ->.
  - by rewrite home_links.
  - by rewrite p2_links.
  - by rewrite p3_links.
  - by rewrite p4_links.
Qed.

Lemma crawl_terminates_witness :
  seed ∈ universe /\
  (forall u s s' new_links,
     u ∈ universe ->
     @get_links site u seed s = (s', Some new_links) ->
     new_links ⊆ universe) /\
  (forall u s, u ∈ universe -> (@get_links site u seed s).2 <> None) /\
  sn (@step site seed) (Running (crawl_website_entry seed ∅ [])) /\
  (forall n r,
     nsteps (@step site seed) n (Running (crawl_website_entry seed ∅ [])) r ->
     n <= size universe) /\
  exists s,
    @crawl_website site pop_first (size universe) seed ∅ []
    = Some (Running s) /\
    urls_to_visit s = ∅.
Proof.
  assert (seed ∈ universe) as Hseed by compute_done.
  split; [exact Hseed |]. split; [exact demo_universe_closed |].
  split; [exact demo_links_parse |].
  destruct (@crawl_terminates site seed universe Hseed demo_universe_closed
              ∅ [])
    as (Hsn & Hbound & _ & Hparse & _).
  split; [assumption |]. split; [assumption |].
  exact (Hparse demo_links_parse pop_first pop_first_choice).
Defined.

Lemma progress_estimate_witness :
  let m := mark_visited "https://a.com/p2" (state_of r1) in
  reports
    (trace (state_of (@loop_body site seed "https://a.com/p2" (state_of r1))))
  = reports (trace (state_of r1))
    ++ [Z.of_nat (size (visited_urls m))
        # Pos.of_nat (size (visited_urls m ∪ urls_to_visit m))].
Proof.
  assert (@reachable site seed ∅ [] (Running (state_of r1))) as Hreach
    by (rewrite <- r1_running; exact reach1).
  assert ("https://a.com/p2" ∈ urls_to_visit (state_of r1)) as Hin
    by (vm_compute; reflexivity).
  exact (proj2 (proj2 (proj1 progress_estimate site seed [] (state_of r1)
                         "https://a.com/p2" Hreach Hin))).
Defined.

End Witness.

(** ** Where the specification and the program part *)

Module BadHrefFacts.

Import BadHref.

Lemma bad_href_does_not_parse : @urlparse site "https://[bad" = None.
Proof. reflexivity. Qed.

Lemma bad_home_links :
  (@get_links site "https://a.com" seed (start_crawl seed)).2
  = Some {[ "https://a.com/p2"; "https://a.com/p3" ]}.
Proof. vm_compute. reflexivity. Qed.

Lemma bad_p2_links :
  (@get_links site "https://a.com/p2" seed (start_crawl seed)).2 = Some ∅.
Proof. vm_compute. reflexivity. Qed.

Lemma bad_p3_links :
  (@get_links site "https://a.com/p3" seed (start_crawl seed)).2 = None.
Proof. vm_compute. reflexivity. Qed.

Lemma universe_is_closed :
  forall u s s' new_links,
    u ∈ universe ->
    @get_links site u seed s = (s', Some new_links) ->
    new_links ⊆ universe.
Proof.
  intros u s s' new_links Hu Hget.
  assert ((@get_links site u seed (start_crawl seed)).2 = Some new_links)
    as Hs0 by (by rewrite (get_links_result u seed _ s), Hget).
  unfold universe in *.
  repeat (apply elem_of_union in Hu as [Hu | Hu]);
    apply elem_of_singleton in Hu as ->.
  - rewrite bad_home_links in Hs0. apply (inj Some) in Hs0 as <-.
    compute_done.
  - rewrite bad_p2_links in Hs0. apply (inj Some) in Hs0 as <-.
    compute_done.
  - rewrite bad_p3_links in Hs0. discriminate.
Qed.

Lemma b1_running : b1 = Running (state_of b1).
Proof. vm_compute. reflexivity. Qed.

Lemma b2_aborted : b2 = Aborted (state_of b2).
Proof. vm_compute. reflexivity. Qed.

Lemma reach_b2 : @reachable site seed ∅ [] b2.
Proof.
  eapply rtc_l; [|apply rtc_once].
  - apply (@step_pop site seed (start_crawl seed) "https://a.com").
    vm_compute. reflexivity.
  - fold b1. rewrite b1_running. apply step_pop. vm_compute. reflexivity.
Qed.

(** C4, as the specification states it, fails on this site.  The universe
    is finite and closed under the links of its pages, and the crawl that
    [crawl_website] runs ends after two iterations: the [ValueError] of the
    malformed link of [/p3] ends the run, and it has no next iteration,
    while [/p2] is in the frontier and not visited. *)
Lemma crawl_cut_short :
  seed ∈ universe /\
  (forall u s s' new_links,
     u ∈ universe ->
     @get_links site u seed s = (s', Some new_links) ->
     new_links ⊆ universe) /\
  @crawl_website site pop_first (size universe) seed ∅ [] = Some b2 /\
  @reachable site seed ∅ [] b2 /\
  b2 = Aborted (state_of b2) /\
  nf (@step site seed) b2 /\
  urls_to_visit (state_of b2) = {[ "https://a.com/p2" ]} /\
  urls_to_visit (state_of b2) <> ∅ /\
  "https://a.com/p2" ∉ visited_urls (state_of b2).
Proof.
  split_and!.
  - compute_done.
  - exact universe_is_closed.
  - vm_compute. reflexivity.
  - exact reach_b2.
  - exact b2_aborted.
  - rewrite b2_aborted. intros [r Hstep]. inversion Hstep.
  - vm_compute. reflexivity.
  - vm_compute. discriminate.
  - vm_compute. discriminate.
Qed.

End BadHrefFacts.

Module AccountOfFacts.

Import AccountOf.

(** The application accepts a root URL that [urlparse] raises on: the host
    gains a slash when it is normalised. *)
Example accepted_root_may_not_parse :
  check_root_url root = Accepted /\
  Str.isascii ("a.com" +:+ sign) = false /\
  @checknetloc site ("a.com" +:+ sign) = false /\
  @urlparse site root = None.
Proof. split_and!; reflexivity. Qed.

End AccountOfFacts.

Module Status300Facts.

Import Status300.


End Status300Facts.

(** * Further properties *)

(** ** More on link extraction *)

Section MoreExtraction.

Context `{W : !World}.

Implicit Types (url base_url href : string) (s : state).
Implicit Types (internal : gset string) (links : list (string * string)).

(** What the loop body of [get_links] does with one href, with everything
    the tests on its path have established. *)
Lemma scan_href_inv url base_url internal links href internal' links' :
  scan_href url base_url (internal, links) href = Some (internal', links') ->
  (internal' = internal /\ links' = links) \/
  (exists full_url,
     urljoin url href = Some full_url /\ passes_filters full_url /\
     ((internal' = {[full_url]} ∪ internal /\ links' = links /\
       internal_host base_url full_url) \/
      (internal' = internal /\ links' = links ++ [(full_url, url)] /\
       external_host base_url (full_url, url) /\
       Str.startswith full_url "http" = true))).
Proof.
  unfold scan_href.
  destruct (urljoin url href) as [full_url|]; cbn [mbind option_bind]; [|done].
  destruct (should_skip_url full_url) as [[|]|] eqn:Hskip;
    cbn [mbind option_bind]; [by intros [= <- <-]; left | | done].
  destruct (is_valid_landing_page full_url) eqn:Hvalid;
    cbn [negb]; [|by intros [= <- <-]; left].
  destruct (urlparse full_url) as [parsed|] eqn:Hp;
    cbn [mbind option_bind]; [|done].
  destruct (urlparse base_url) as [parsed_base|] eqn:Hb;
    cbn [mbind option_bind]; [|done].
  destruct (String.eqb (netloc parsed) (netloc parsed_base)) eqn:Hhost.
  - intros [= <- <-]. right. exists full_url. split; [done |].
    split; [done |]. left. split; [done |]. split; [done |].
    exists parsed, parsed_base. split; [done |]. split; [done |].
    by apply String.eqb_eq.
  - destruct (Str.startswith full_url "http") eqn:Hhttp.
    + intros [= <- <-]. right. exists full_url. split; [done |].
      split; [done |]. right. split; [done |]. split; [done |].
      split; [|done]. exists parsed, parsed_base. split; [done |].
      split; [done |]. by apply String.eqb_neq.
    + intros [= <- <-]. by left.
Qed.

(** The records that one pass appends do not depend on the records that are
    already there. *)
Lemma scan_href_append url base_url internal links href :
  scan_href url base_url (internal, links) href
  = (fun acc => (acc.1, links ++ acc.2))
      <$> scan_href url base_url (internal, []) href.
Proof.
  unfold scan_href.
  destruct (urljoin url href) as [full_url|]; cbn [mbind option_bind]; [|done].
  destruct (should_skip_url full_url) as [[|]|];
    cbn [mbind option_bind]; [simpl; by rewrite app_nil_r | | done].
  destruct (is_valid_landing_page full_url); cbn [negb];
    [|simpl; by rewrite app_nil_r].
  destruct (urlparse full_url) as [parsed|]; cbn [mbind option_bind]; [|done].
  destruct (urlparse base_url) as [parsed_base|];
    cbn [mbind option_bind]; [|done].
  destruct (String.eqb (netloc parsed) (netloc parsed_base));
    [simpl; by rewrite app_nil_r |].
  destruct (Str.startswith full_url "http"); simpl; by rewrite ?app_nil_r.
Qed.

Lemma scan_hrefs_append url base_url hrefs internal links new :
  scan_hrefs url base_url hrefs internal (links ++ new)
  = (links ++ (scan_hrefs url base_url hrefs internal new).1,
     (scan_hrefs url base_url hrefs internal new).2).
Proof.
  revert internal new. induction hrefs as [|href hrefs IH];
    intros internal new; cbn [scan_hrefs]; [done |].
  rewrite (scan_href_append _ _ _ (links ++ new)),
    (scan_href_append _ _ _ new).
  destruct (scan_href url base_url (internal, []) href) as [[i d]|];
    simpl; [|done].
  rewrite <- app_assoc. apply IH.
Qed.

(** [get_links] appends the records of the page to [external_links],
    whatever is in it. *)
Lemma get_links_records url base_url s :
  external_links (get_links url base_url s).1
  = external_links s ++ records_of base_url url.
Proof.
  unfold records_of, get_links.
  destruct (requests_get url) as [|status_code content_type hrefs];
    [by rewrite app_nil_r |].
  destruct (raise_for_status status_code); [by rewrite app_nil_r |].
  destruct (Str.contains content_type "text/html"); cbn [negb];
    [|by rewrite app_nil_r].
  simpl.
  pose proof (scan_hrefs_append url base_url hrefs ∅ (external_links s) [])
    as Happ. rewrite app_nil_r in Happ. rewrite Happ.
  by destruct (scan_hrefs url base_url hrefs ∅ []).
Qed.

(** The loop of [get_links]: the records it appends name the page as their
    source and hold a URL that starts with [http], passed both filters and
    has an external host; the links it collects passed both filters and
    have the host of the seed. *)
Lemma scan_hrefs_inv url base_url hrefs internal links links' r :
  scan_hrefs url base_url hrefs internal links = (links', r) ->
  (exists new,
     links' = links ++ new /\
     Forall (fun record =>
               record.2 = url /\ Str.startswith record.1 "http" = true /\
               passes_filters record.1 /\ external_host base_url record)
       new) /\
  (forall internal',
     r = Some internal' ->
     forall x, x ∈ internal' ->
       x ∈ internal \/ passes_filters x /\ internal_host base_url x).
Proof.
  revert internal links. induction hrefs as [|href hrefs IH];
    intros internal links; cbn [scan_hrefs].
  - intros [= <- <-]. split.
    + exists []. by rewrite app_nil_r.
    + intros ? [= <-]. auto.
  - destruct (scan_href url base_url (internal, links) href)
      as [[internal1 links1]|] eqn:Hstep.
    + intros Hrest. apply IH in Hrest as [(new & -> & Hnew) Hint].
      apply scan_href_inv in Hstep
        as [[-> ->] | (full_url & _ & Hpass
                       & [(-> & -> & Hin) | (-> & -> & Hext & Hhttp)])].
      * eauto.
      * split; [eauto |]. intros internal' Hr x Hx.
        destruct (Hint internal' Hr x Hx) as [Hx' | ?]; [|auto].
        apply elem_of_union in Hx' as [->%elem_of_singleton | ?]; auto.
      * split; [|done]. exists ((full_url, url) :: new).
        split; [by rewrite <- app_assoc |]. by constructor.
    + intros [= <- <-]. split; [|done]. exists []. by rewrite app_nil_r.
Qed.

Lemma records_of_inv base_url url :
  Forall (fun record =>
            record.2 = url /\ Str.startswith record.1 "http" = true /\
            passes_filters record.1 /\ external_host base_url record)
    (records_of base_url url).
Proof.
  unfold records_of, get_links.
  destruct (requests_get url) as [|status_code content_type hrefs];
    [constructor |].
  destruct (raise_for_status status_code); [constructor |].
  destruct (Str.contains content_type "text/html"); cbn [negb];
    [|constructor].
  destruct (scan_hrefs url base_url hrefs ∅
              (external_links (emit (Requested url) (start_crawl base_url))))
    as [links' r] eqn:Hscan.
  apply scan_hrefs_inv in Hscan as [(new & -> & Hnew) _]. by simpl.
Qed.

(** The links that [get_links] returns have the host of the seed. *)
Lemma get_links_internal_host url base_url s new_links :
  (get_links url base_url s).2 = Some new_links ->
  forall x, x ∈ new_links -> passes_filters x /\ internal_host base_url x.
Proof.
  unfold get_links.
  destruct (requests_get url) as [|status_code content_type hrefs];
    [simpl; intros [= <-] x Hx; by apply not_elem_of_empty in Hx |].
  destruct (raise_for_status status_code);
    [simpl; intros [= <-] x Hx; by apply not_elem_of_empty in Hx |].
  destruct (Str.contains content_type "text/html"); cbn [negb];
    [|simpl; intros [= <-] x Hx; by apply not_elem_of_empty in Hx].
  destruct (scan_hrefs url base_url hrefs ∅
              (external_links (emit (Requested url) s)))
    as [links' r] eqn:Hscan.
  apply scan_hrefs_inv in Hscan as [_ Hint]. simpl. intros -> x Hx.
  by destruct (Hint new_links eq_refl x Hx) as [?%not_elem_of_empty | ?].
Qed.

(** [get_links] does not sleep. *)
Lemma get_links_sleeps url base_url s :
  sleeps (trace (get_links url base_url s).1) = sleeps (trace s).
Proof.
  unfold get_links, sleeps.
  destruct (requests_get url) as [|status_code content_type hrefs];
    [|destruct (raise_for_status status_code)]; simpl.
  - rewrite !omap_app, !length_app. simpl. lia.
  - rewrite !omap_app, !length_app. simpl. lia.
  - destruct (Str.contains content_type "text/html"); cbn [negb].
    + destruct (scan_hrefs url base_url hrefs ∅ _). simpl.
      rewrite !omap_app, !length_app. simpl. lia.
    + simpl. rewrite !omap_app, !length_app. simpl. lia.
Qed.

End MoreExtraction.

(** ** More on the crawl loop *)

Section MoreLoop.

Context `{W : !World}.

Implicit Types (start_url root_url u : string) (s : state) (r : run).

Lemma requests_app (t1 t2 : list event) :
  requests (t1 ++ t2) = requests t1 ++ requests t2.
Proof. apply omap_app. Qed.

Lemma reports_app (t1 t2 : list event) :
  reports (t1 ++ t2) = reports t1 ++ reports t2.
Proof. apply omap_app. Qed.

Lemma sleeps_app (t1 t2 : list event) :
  sleeps (t1 ++ t2) = sleeps t1 + sleeps t2.
Proof. unfold sleeps. by rewrite omap_app, length_app. Qed.

(** The three ways an iteration can go: the popped URL was visited already;
    the counter is zero and the division raises; or the page is fetched, and
    the iteration ends normally when [get_links] returns and is aborted when
    it raises. *)
Lemma loop_body_outcome start_url u s :
  (u ∈ visited_urls s /\
   loop_body start_url u s
   = Running (set_urls_to_visit (urls_to_visit s ∖ {[u]}) s)) \/
  ((u ∉ visited_urls s) /\ total_urls_discovered s = 0 /\
   loop_body start_url u s = Aborted (mark_visited u s)) \/
  ((u ∉ visited_urls s) /\ total_urls_discovered s <> 0 /\
   exists s',
     state_of (loop_body start_url u s) = s' /\
     visited_urls s' = {[u]} ∪ visited_urls s /\
     external_links s' = external_links s ++ records_of start_url u /\
     requests (trace s') = requests (trace s) ++ [u] /\
     ((exists new_links,
         (forall s0, (get_links u start_url s0).2 = Some new_links) /\
         loop_body start_url u s = Running s' /\
         urls_to_visit s'
         = (urls_to_visit s ∖ {[u]})
           ∪ (new_links ∖ ({[u]} ∪ visited_urls s)
                ∖ (urls_to_visit s ∖ {[u]})) /\
         sleeps (trace s') = S (sleeps (trace s)))
      \/
      ((forall s0, (get_links u start_url s0).2 = None) /\
       loop_body start_url u s = Aborted s' /\
       urls_to_visit s' = urls_to_visit s ∖ {[u]} /\
       sleeps (trace s') = sleeps (trace s)))).
Proof.
  unfold loop_body. case_bool_decide as Hu; [by left |]. right.
  cbn [mark_visited set_visited_urls set_urls_to_visit total_urls_discovered].
  destruct (total_urls_discovered s) as [|n] eqn:Htotal; [by left |]. right.
  split; [done |]. split; [done |].
  fold (mark_visited u s).
  set (s1 := emit (Status u) (emit (Progress _) (mark_visited u s))).
  pose proof (get_links_records u start_url s1) as Hrec.
  pose proof (get_links_sleeps u start_url s1) as Hsl.
  pose proof (fun s0 => get_links_result u start_url s0 s1) as Hres.
  destruct (get_links u start_url s1) as [s2 r] eqn:Hget.
  pose proof (get_links_spec _ _ _ _ _ Hget)
    as (HF & HT & HV & _ & (events & Htr & Hreq & _) & _).
  simpl in Hrec, Hsl, Hres.
  assert (requests (trace s2) = requests (trace s) ++ [u]) as Hreq2.
  { rewrite Htr, requests_app.
    change (requests (Requested u :: events)) with (u :: requests events).
    rewrite Hreq. unfold s1. simpl. rewrite !requests_app. simpl.
    by rewrite !app_nil_r. }
  assert (sleeps (trace s2) = sleeps (trace s)) as Hsl2.
  { rewrite Hsl. unfold s1. simpl. rewrite !sleeps_app. simpl.
    unfold sleeps. simpl. lia. }
  destruct r as [new_links|].
  - eexists. split; [reflexivity |]. simpl. rewrite HV, HF, Hrec. simpl.
    split; [done |]. split; [done |]. split.
    { rewrite requests_app, Hreq2. simpl. by rewrite app_nil_r. }
    left. exists new_links. split; [done |]. split; [done |].
    split; [done |]. rewrite sleeps_app, Hsl2. unfold sleeps. simpl. lia.
  - exists s2. split; [done |]. rewrite HV, HF, Hrec. simpl.
    split; [done |]. split; [done |]. split; [done |].
    right. by split_and!.
Qed.

(** In a crawl started with an empty visited set a pending URL is not
    visited and the counter is not zero. *)
Lemma pending_fresh root_url links s u :
  reachable root_url ∅ links (Running s) ->
  u ∈ urls_to_visit s ->
  (u ∉ visited_urls s) /\ total_urls_discovered s <> 0.
Proof.
  intros Hr Hu.
  destruct (mark_visited_counter _ _ _ _ Hr Hu) as (Hfresh & _ & _).
  split; [done |].
  apply reachable_counter in Hr as [_ Hc]. simpl in Hc.
  rewrite Hc, (size_remove (urls_to_visit s) u) by done. lia.
Qed.

(** X6. No URL is lost and none goes back: along any number of iterations,
    from any state, a visited URL stays visited and a URL that is visited or
    pending stays visited or pending. *)
Theorem discovered_never_forgotten start_url r r' :
  rtc (step start_url) r r' ->
  visited_urls (state_of r) ⊆ visited_urls (state_of r') /\
  visited_urls (state_of r) ∪ urls_to_visit (state_of r)
  ⊆ visited_urls (state_of r') ∪ urls_to_visit (state_of r').
Proof.
  induction 1 as [r | r r1 r' Hstep _ [IHV IHD]]; [done |].
  apply step_inv in Hstep as (s & u & -> & Hu & ->).
  destruct (loop_body_effect start_url u s)
    as (added & new & events & HV & HF & _).
  rewrite HV, HF in *. simpl. split.
  - set_solver.
  - intros x Hx. apply IHD. destruct (decide (x = u)); set_solver.
Qed.

(** The records of a run are those of the requested pages, in the order of
    the requests. *)
Lemma reachable_external_links start_url visited links r :
  reachable start_url visited links r ->
  external_links (state_of r)
  = links ++ mjoin (records_of start_url <$> requests (trace (state_of r))).
Proof.
  unfold reachable. revert r. apply rtc_ind_r.
  - simpl. by rewrite app_nil_r.
  - intros r r' _ Hstep IH.
    apply step_inv in Hstep as (s & u & -> & Hu & ->). simpl in IH.
    destruct (loop_body_outcome start_url u s)
      as [[_ ->] | [(_ & _ & ->) | (_ & _ & s' & -> & _ & -> & -> & _)]];
      try done.
    rewrite IH, fmap_app, join_app. simpl.
    by rewrite app_nil_r, app_assoc.
Qed.

(** X3. [external_links] is made page by page.  [get_links] appends the
    records of its page to the list, the same records whatever the list
    holds; and after any run, in the loop or aborted, the list is the one at
    the call followed by the records of each requested page, in the order of
    the requests. *)
Theorem external_links_by_page start_url visited links r :
  reachable start_url visited links r ->
  external_links (state_of r)
  = links ++ mjoin (records_of start_url <$> requests (trace (state_of r)))
  /\
  forall u s,
    external_links (get_links u start_url s).1
    = external_links s ++ records_of start_url u.
Proof.
  intros Hr. split.
  - exact (reachable_external_links _ _ _ _ Hr).
  - intros u s. apply get_links_records.
Qed.

(** The visited URLs of a crawl are the requested ones. *)
Lemma reachable_visited_requested root_url links r :
  reachable root_url ∅ links r ->
  forall x, x ∈ visited_urls (state_of r) <-> x ∈ requests (trace (state_of r)).
Proof.
  intros Hr. split; [|by apply (reachable_requests _ _ _ _ Hr)].
  revert x. unfold reachable in Hr. revert r Hr.
  apply (rtc_ind_r (fun r => forall x, x ∈ visited_urls (state_of r) ->
                       x ∈ requests (trace (state_of r)))).
  - simpl. set_solver.
  - intros r r' Hr Hstep IH.
    apply step_inv in Hstep as (s & u & -> & Hu & ->). simpl in IH.
    destruct (pending_fresh root_url links s u Hr Hu) as [Hfresh Hpos].
    destruct (loop_body_outcome root_url u s)
      as [[? _] | [(_ & ? & _) | (_ & _ & s' & -> & -> & _ & -> & _)]];
      try done.
    intros x [->%elem_of_singleton | Hx]%elem_of_union.
    + apply elem_of_app. right. by left.
    + apply elem_of_app. left. by apply IH.
Qed.

(** There are as many requests as visited URLs. *)
Lemma reachable_request_count root_url links r :
  reachable root_url ∅ links r ->
  visited_urls (state_of r) = list_to_set (requests (trace (state_of r))) /\
  length (requests (trace (state_of r))) = size (visited_urls (state_of r)).
Proof.
  intros Hr.
  destruct (reachable_requests _ _ _ _ Hr) as [_ Hnodup].
  assert (visited_urls (state_of r)
          = list_to_set (requests (trace (state_of r)))) as Heq.
  { apply set_eq. intros x. rewrite elem_of_list_to_set.
    exact (reachable_visited_requested _ _ _ Hr x). }
  split; [done |]. rewrite Heq. by rewrite size_list_to_set.
Qed.

(** X7. In a crawl every visited URL was requested, once: the requests are
    the visited URLs, without repetition, so there are as many requests as
    visited URLs. *)
Theorem visited_are_requested_once root_url links r :
  reachable root_url ∅ links r ->
  NoDup (requests (trace (state_of r))) /\
  visited_urls (state_of r) = list_to_set (requests (trace (state_of r))) /\
  length (requests (trace (state_of r))) = size (visited_urls (state_of r)).
Proof.
  intros Hr. split.
  - by destruct (reachable_requests _ _ _ _ Hr).
  - exact (reachable_request_count _ _ _ Hr).
Qed.

Lemma reachable_sleeps root_url links r :
  reachable root_url ∅ links r ->
  match r with
  | Running s => sleeps (trace s) = length (requests (trace s))
  | Aborted s => S (sleeps (trace s)) = length (requests (trace s))
  end.
Proof.
  unfold reachable. revert r. apply rtc_ind_r.
  - done.
  - intros r r' Hr Hstep IH.
    apply step_inv in Hstep as (s & u & -> & Hu & ->). simpl in IH.
    destruct (pending_fresh root_url links s u Hr Hu) as [Hfresh Hpos].
    destruct (loop_body_outcome root_url u s)
      as [[? _] | [(_ & ? & _)
                  | (_ & _ & s' & Hs' & _ & _ & Hreq
                     & [(L & _ & Hbody & _ & Hsl) | (_ & Hbody & _ & Hsl)])]];
      try done; rewrite Hbody; rewrite Hreq, length_app, Hsl; simpl; lia.
Qed.

(** X8. The crawl sleeps once after each page it has fetched and processed:
    in the loop the number of [time.sleep(1)] calls is the number of visited
    URLs; an aborted run has not slept for the page that raised. *)
Theorem one_sleep_per_page root_url links r :
  reachable root_url ∅ links r ->
  match r with
  | Running s => sleeps (trace s) = size (visited_urls s)
  | Aborted s => S (sleeps (trace s)) = size (visited_urls s)
  end.
Proof.
  intros Hr.
  destruct (reachable_request_count _ _ _ Hr) as [_ Hlen].
  pose proof (reachable_sleeps _ _ _ Hr) as Hsl.
  destruct r as [s | s]; simpl in *; lia.
Qed.

(** What a crawl maintains about the link graph: the seed is visited or
    pending; the links of a visited page are visited or pending; whatever is
    visited or pending can be reached from the seed by following links; and,
    in the loop, [get_links] returned for every visited page. *)
Lemma reachable_closed root_url links r :
  reachable root_url ∅ links r ->
  root_url ∈ visited_urls (state_of r) ∪ urls_to_visit (state_of r) /\
  (forall v x,
     v ∈ visited_urls (state_of r) -> links_to root_url v x ->
     x ∈ visited_urls (state_of r) ∪ urls_to_visit (state_of r)) /\
  (forall x,
     x ∈ visited_urls (state_of r) ∪ urls_to_visit (state_of r) ->
     rtc (links_to root_url) root_url x) /\
  (forall s, r = Running s ->
     forall v, v ∈ visited_urls s ->
       exists new_links,
         forall s0, (get_links v root_url s0).2 = Some new_links).
Proof.
  unfold reachable. revert r. apply rtc_ind_r.
  - simpl. split_and!.
    + set_solver.
    + set_solver.
    + intros x Hx. assert (x = root_url) as -> by set_solver. done.
    + intros s [= <-]. simpl. set_solver.
  - intros r r' Hr Hstep (IHseed & IHclosed & IHreach & IHret).
    apply step_inv in Hstep as (s & u & -> & Hu & ->). simpl in *.
    destruct (pending_fresh root_url links s u Hr Hu) as [Hfresh Hpos].
    assert (rtc (links_to root_url) root_url u) as Hreach_u
      by (apply IHreach; clear -Hu; set_solver).
    destruct (loop_body_outcome root_url u s)
      as [[? _] | [(_ & ? & _)
                  | (_ & _ & s' & Hs' & HV & _ & _
                     & [(L & HL & Hbody & HF & _) | (HL & Hbody & HF & _)])]];
      try done; rewrite Hbody in *; simpl in *; clear Hs'; rewrite HV, HF.
    + split_and!.
      * clear -IHseed. destruct (decide (root_url = u)); set_solver.
      * intros v x [->%elem_of_singleton | Hv]%elem_of_union Hlink.
        -- destruct Hlink as (s0 & L0 & HL0 & Hx).
           rewrite HL in HL0. injection HL0 as <-. clear -Hx.
           destruct (decide (x ∈ {[u]} ∪ visited_urls s)); [set_solver |].
           destruct (decide (x ∈ urls_to_visit s ∖ {[u]})); set_solver.
        -- pose proof (IHclosed v x Hv Hlink) as Hin. clear -Hin.
           destruct (decide (x = u)); set_solver.
      * intros x Hx.
        destruct (decide (x ∈ visited_urls s ∪ urls_to_visit s)) as [? | Hnew];
          [by apply IHreach |].
        assert (x ∈ L) as HxL by (clear -Hx Hnew Hu; set_solver).
        eapply rtc_r; [exact Hreach_u |].
        exists s, L. split; [apply HL | done].
      * intros s0 [= <-] v. rewrite HV.
        intros [->%elem_of_singleton | Hv]%elem_of_union; [by exists L |].
        by apply (IHret s).
    + split_and!.
      * clear -IHseed. destruct (decide (root_url = u)); set_solver.
      * intros v x [->%elem_of_singleton | Hv]%elem_of_union Hlink.
        -- destruct Hlink as (s0 & L0 & HL0 & Hx). by rewrite HL in HL0.
        -- pose proof (IHclosed v x Hv Hlink) as Hin. clear -Hin.
           destruct (decide (x = u)); set_solver.
      * intros x Hx. apply IHreach. clear -Hx Hu. set_solver.
      * done.
Qed.

(** At the exit of the loop the visited URLs are those that can be reached
    from the seed. *)
Lemma completed_visited root_url links s :
  reachable root_url ∅ links (Running s) ->
  urls_to_visit s = ∅ ->
  forall x, x ∈ visited_urls s <-> rtc (links_to root_url) root_url x.
Proof.
  intros Hr Hempty x.
  destruct (reachable_closed _ _ _ Hr) as (Hseed & Hclosed & Hreach & _).
  simpl in *. rewrite Hempty in *. split.
  - intros Hx. apply Hreach. clear -Hx. set_solver.
  - revert x. apply rtc_ind_r; [clear -Hseed; set_solver |].
    intros y z _ Hlink IH.
    pose proof (Hclosed y z IH Hlink) as Hin. clear -Hin. set_solver.
Qed.

(** X1. A crawl visits the pages that can be reached from the seed, and at
    the exit of the loop all of them: in every run each visited or pending
    URL is reached from the seed by following the links that [get_links]
    returns, and when the loop ends with an empty frontier the visited set
    is exactly the set of the URLs so reached. *)
Theorem crawl_visits_reachable_pages root_url links r :
  reachable root_url ∅ links r ->
  (forall x,
     x ∈ visited_urls (state_of r) ∪ urls_to_visit (state_of r) ->
     rtc (links_to root_url) root_url x) /\
  (forall s, r = Running s -> urls_to_visit s = ∅ ->
     forall x, x ∈ visited_urls s <-> rtc (links_to root_url) root_url x).
Proof.
  intros Hr. split.
  - by destruct (reachable_closed _ _ _ Hr) as (_ & _ & Hreach & _).
  - intros s -> Hempty. exact (completed_visited _ _ _ Hr Hempty).
Qed.

(** X2. The result of a crawl does not depend on the elements that
    [set.pop()] returns: when one run ends with an empty frontier, every
    other run that is over has ended in the same way, not by an exception,
    with the same visited set and with the same records in [external_links]
    up to their order. *)
Theorem crawl_result_order_independent root_url links s1 r2 :
  reachable root_url ∅ links (Running s1) ->
  urls_to_visit s1 = ∅ ->
  reachable root_url ∅ links r2 ->
  finished r2 ->
  exists s2,
    r2 = Running s2 /\
    visited_urls s2 = visited_urls s1 /\
    external_links s2 ≡ₚ external_links s1.
Proof.
  intros Hr1 Hempty1 Hr2 Hfin.
  pose proof (completed_visited _ _ _ Hr1 Hempty1) as Hall1.
  destruct (reachable_closed _ _ _ Hr1) as (_ & _ & _ & Hret1).
  specialize (Hret1 s1 eq_refl).
  destruct r2 as [s2 | s2].
  - exists s2. split; [done |]. simpl in Hfin.
    pose proof (completed_visited _ _ _ Hr2 Hfin) as Hall2.
    assert (visited_urls s2 = visited_urls s1) as HV.
    { apply set_eq. intros x. by rewrite Hall1, Hall2. }
    split; [done |].
    pose proof (reachable_external_links _ _ _ _ Hr1) as He1.
    pose proof (reachable_external_links _ _ _ _ Hr2) as He2.
    simpl in He1, He2. rewrite He1, He2.
    apply Permutation_app_head. f_equiv. f_equiv.
    destruct (reachable_requests _ _ _ _ Hr1) as [_ Hnd1].
    destruct (reachable_requests _ _ _ _ Hr2) as [_ Hnd2].
    apply NoDup_Permutation; [done | done |]. intros x.
    rewrite <- (reachable_visited_requested _ _ _ Hr1 x),
      <- (reachable_visited_requested _ _ _ Hr2 x). simpl. by rewrite HV.
  - exfalso. unfold reachable in Hr2.
    apply rtc_inv_r in Hr2 as [[=] | (r0 & Hr0 & Hstep)].
    apply step_inv in Hstep as (s & u & -> & Hu & Hbody).
    destruct (pending_fresh root_url links s u Hr0 Hu) as [Hfresh Hpos].
    destruct (reachable_closed _ _ _ Hr0) as (_ & _ & Hreach0 & _).
    assert (u ∈ visited_urls s1) as Hu1
      by (apply Hall1, Hreach0; simpl; clear -Hu; set_solver).
    destruct (Hret1 u Hu1) as [L HL].
    destruct (loop_body_outcome root_url u s)
      as [[? _] | [(_ & ? & _)
                  | (_ & _ & s' & _ & _ & _ & _
                     & [(L' & _ & Hrun & _) | (Hnone & _)])]];
      try done.
    + by rewrite Hrun in Hbody.
    + specialize (Hnone s). by rewrite HL in Hnone.
Qed.

(** X5. The crawl does not leave the site: every URL that is requested, and
    every URL that is pending, is the seed or a URL that passed both filters
    and has the netloc of the seed. *)
Theorem requests_stay_on_site start_url visited links r :
  reachable start_url visited links r ->
  forall x,
    x ∈ requests (trace (state_of r)) \/ x ∈ urls_to_visit (state_of r) ->
    x = start_url \/ passes_filters x /\ internal_host start_url x.
Proof.
  unfold reachable. revert r.
  apply (rtc_ind_r
           (fun r => forall x,
              x ∈ requests (trace (state_of r))
              \/ x ∈ urls_to_visit (state_of r) ->
              x = start_url \/ passes_filters x /\ internal_host start_url x)).
  - simpl. intros x [Hx | Hx]; [by apply elem_of_nil in Hx |].
    left. by apply elem_of_singleton in Hx.
  - intros r r' _ Hstep IH.
    apply step_inv in Hstep as (s & u & -> & Hu & ->). simpl in IH.
    destruct (loop_body_effect start_url u s)
      as (added & new & events & _ & HF & _ & _ & Hadded & _ & _ & _ & Htr
          & Hreq & _).
    rewrite HF, Htr, requests_app. intros x [Hx | Hx].
    + apply elem_of_app in Hx as [Hx | Hx]; [by apply IH; left |].
      destruct Hreq as [Hreq | [Hreq _]]; rewrite Hreq in Hx.
      * by apply elem_of_nil in Hx.
      * apply list_elem_of_singleton in Hx as ->. apply IH. by right.
    + apply elem_of_union in Hx as [Hx | Hx].
      * apply IH. right. clear -Hx. set_solver.
      * right. destruct (Hadded x Hx) as (_ & s0 & s1 & L & Hget & HxL).
        apply (get_links_internal_host u start_url s0 L); [|done].
        by rewrite Hget.
Qed.

(** X4. Each record that a run appends to [external_links] was found on a
    page that was requested and is in [visited_urls], and its link starts
    with [http] and passed both filters: it holds no [#] and no [et_blog],
    and its path does not end with a skipped extension. *)
Theorem records_come_from_visited_pages start_url visited links r :
  reachable start_url visited links r ->
  exists appended,
    external_links (state_of r) = links ++ appended /\
    Forall (fun record =>
              record.2 ∈ visited_urls (state_of r) /\
              record.2 ∈ requests (trace (state_of r)) /\
              Str.startswith record.1 "http" = true /\
              should_skip_url record.1 = Some false /\
              is_valid_landing_page record.1 = true)
      appended.
Proof.
  intros Hr. eexists.
  split; [exact (reachable_external_links _ _ _ _ Hr) |].
  destruct (reachable_requests _ _ _ _ Hr) as [Hvisited _].
  apply Forall_forall. intros record Hrecord.
  apply list_elem_of_join in Hrecord as (records & Hrecord & Hrecords).
  apply list_elem_of_fmap in Hrecords as (u & -> & Hu).
  pose proof (records_of_inv start_url u) as Hinv.
  rewrite Forall_forall in Hinv.
  destruct (Hinv record Hrecord) as (-> & Hhttp & [Hskip Hvalid] & _).
  auto.
Qed.

Lemma Zpos_of_nat (d : nat) : d <> 0 -> Z.pos (Pos.of_nat d) = Z.of_nat d.
Proof. intros Hd. by rewrite <- positive_nat_Z, Nat2Pos.id. Qed.

(** A report is a positive fraction of at most one. *)
Lemma ratio_bounds (n d : nat) :
  1 <= n -> n <= d ->
  (0 < Z.of_nat n # Pos.of_nat d)%Q /\ (Z.of_nat n # Pos.of_nat d <= 1)%Q.
Proof.
  intros Hn Hd. unfold Qlt, Qle. simpl.
  rewrite Zpos_of_nat by lia. lia.
Qed.

(** X9. Every progress value that a crawl reports is above 0 and at most 1:
    [min(progress_value, 1.0)] never changes it, and the argument of
    [progress_bar.progress] is in range. *)
Theorem progress_within_bounds root_url links r :
  reachable root_url ∅ links r ->
  Forall (fun q => (0 < q)%Q /\ (q <= 1)%Q) (reports (trace (state_of r))).
Proof.
  unfold reachable. revert r. apply rtc_ind_r.
  - constructor.
  - intros r r' Hr Hstep IH.
    apply step_inv in Hstep as (s & u & -> & Hu & ->). simpl in IH.
    destruct (progress_reported _ _ _ _ Hr Hu) as (_ & Hsize & ->).
    apply Forall_app. split; [done |]. constructor; [|constructor].
    apply ratio_bounds.
    + simpl. rewrite (size_remove ({[u]} ∪ visited_urls s) u) by set_solver.
      lia.
    + rewrite <- Hsize. lia.
Qed.

(** X10. A crawl that ends with an empty frontier has reported 100% last, and
    its counter is the number of visited URLs. *)
Theorem completed_crawl_reports_all root_url links s :
  reachable root_url ∅ links (Running s) ->
  urls_to_visit s = ∅ ->
  (exists q, last (reports (trace s)) = Some q /\ (q == 1)%Q) /\
  total_urls_discovered s = size (visited_urls s).
Proof.
  intros Hr Hempty. split.
  - unfold reachable in Hr.
    apply rtc_inv_r in Hr as [[= <-] | (r0 & Hr0 & Hstep)].
    { simpl in Hempty. exfalso. clear -Hempty. set_solver. }
    apply step_inv in Hstep as (s0 & u & -> & Hu & Hbody).
    destruct (progress_reported _ _ _ _ Hr0 Hu) as (_ & _ & Hrep).
    destruct (loop_body_effect root_url u s0)
      as (added & new & events & _ & HF & _).
    rewrite <- Hbody in HF, Hrep. simpl in HF, Hrep.
    assert (urls_to_visit s0 ∖ {[u]} = ∅) as Hlast
      by (clear -HF Hempty; set_solver).
    rewrite Hrep, last_snoc. eexists. split; [reflexivity |].
    simpl. rewrite Hlast, (right_id_L ∅ (∪)).
    unfold Qeq. simpl. rewrite Zpos_of_nat; [lia |].
    rewrite (size_remove ({[u]} ∪ visited_urls s0) u) by set_solver. lia.
  - apply reachable_counter in Hr as [_ Hc]. simpl in Hc.
    by rewrite Hc, Hempty, size_empty, Nat.add_0_r.
Qed.

End MoreLoop.

(** ** The application script *)

Section MoreApplication.

Context `{W : !World}.
Import StrFacts.

(** X11. The keyword filter keeps, in their order and as often as they
    occur, the records whose link holds the keyword as a substring, and
    drops the others: what it returns is a sublist of the list, made of
    such records only, and the largest one, as every sublist of the list
    made of such records is a sublist of it.  The empty keyword keeps
    every record. *)
Theorem keyword_filter_spec keyword (links : list (string * string)) :
  (forall record,
     record ∈ filtered_links keyword links <->
     record ∈ links /\ exists a b, record.1 = a +:+ keyword +:+ b) /\
  filtered_links keyword links `sublist_of` links /\
  (forall rows,
     rows `sublist_of` links ->
     Forall (fun record => exists a b, record.1 = a +:+ keyword +:+ b) rows ->
     rows `sublist_of` filtered_links keyword links) /\
  filtered_links "" links = links.
Proof.
  split_and!.
  - intros [link source]. unfold filtered_links.
    rewrite !list_elem_of_In, filter_In, <- contains_spec. done.
  - unfold filtered_links. induction links as [|[link source] links IH];
      simpl; [done |].
    destruct (Str.contains link keyword);
      [by apply sublist_skip | by apply sublist_cons].
  - intros rows Hsub. unfold filtered_links.
    induction Hsub as [|[link source] rows links Hsub IH
                       |[link source] rows links Hsub IH]; intros Hall.
    + constructor.
    + apply Forall_cons in Hall as [Hkey Hall]. simpl in *.
      apply contains_spec in Hkey. rewrite Hkey.
      apply sublist_skip. by apply IH.
    + simpl. destruct (Str.contains link keyword);
        [apply sublist_cons |]; by apply IH.
  - unfold filtered_links. induction links as [|[link source] links IH];
      simpl; [done |].
    assert (Str.contains link "" = true) as ->
      by (by destruct link).
    by rewrite IH.
Qed.

(** A string that holds [k'] holds every substring of [k']. *)
Lemma contains_trans (s k k' : string) :
  Str.contains k' k = true -> Str.contains s k' = true ->
  Str.contains s k = true.
Proof.
  rewrite !contains_spec. intros (a & b & ->) (c & d & ->).
  exists (c +:+ a), (b +:+ d). by rewrite !append_assoc.
Qed.

(** X12. A keyword that holds another one selects among the rows of the other
    one: filtering with it what the shorter keyword kept gives what it keeps
    of the whole list. *)
Theorem keyword_filter_refines keyword keyword'
    (links : list (string * string)) :
  Str.contains keyword' keyword = true ->
  filtered_links keyword' (filtered_links keyword links)
  = filtered_links keyword' links.
Proof.
  intros Hsub. unfold filtered_links.
  induction links as [|[link source] links IH]; simpl; [done |].
  destruct (Str.contains link keyword') eqn:Hk'.
  - rewrite (contains_trans link keyword keyword' Hsub Hk'). simpl.
    by rewrite Hk', IH.
  - destruct (Str.contains link keyword); simpl; by rewrite ?Hk', IH.
Qed.

(** The components that [urlparse] finds first. *)
Lemma urlparse_inv url parsed :
  urlparse url = Some parsed ->
  exists rest,
    split_netloc (split_scheme (clean_url url)).2
    = Some (netloc parsed, rest) /\
    scheme parsed = (split_scheme (clean_url url)).1 /\
    fragment parsed = (split_fragment rest).2 /\
    checknetloc (netloc parsed) = true.
Proof.
  unfold urlparse. destruct (split_scheme (clean_url url)) as [sch u]. simpl.
  destruct (split_netloc u) as [[n r]|]; simpl; [|done].
  destruct (split_fragment r) as [u1 f] eqn:Hf. simpl.
  destruct (split_query u1) as [u2 q]. simpl.
  destruct (checknetloc n) eqn:Hck; simpl; [|done].
  destruct (split_params sch u2). intros [= <-]. exists r. simpl.
  by rewrite Hf.
Qed.

(** [urlparse] raises on a netloc that fails one of the two checks, and on
    nothing else. *)
Lemma urlparse_None url :
  urlparse url = None <->
  match split_netloc (split_scheme (clean_url url)).2 with
  | Some (n, _) => checknetloc n = false
  | None => True
  end.
Proof.
  unfold urlparse. destruct (split_scheme (clean_url url)) as [sch u]. simpl.
  destruct (split_netloc u) as [[n r]|]; simpl; [|done].
  destruct (split_fragment r) as [u1 f]. simpl.
  destruct (split_query u1) as [u2 q]. simpl.
  destruct (checknetloc n); simpl; [|done].
  by destruct (split_params sch u2).
Qed.

(** X13. A root URL that the application accepts starts with [http://] or
    [https://].  With, as host, what follows the two slashes up to the first
    [/], [?] or [#] (tabs and line ends removed): [urlparse] raises
    [ValueError] on it exactly when that host fails the bracket tests or
    [_checknetloc], and otherwise returns that scheme and that host as
    netloc. *)
Theorem accepted_root_parses root_url :
  check_root_url root_url = Accepted ->
  exists sch rest,
    (sch = "http" \/ sch = "https") /\
    root_url = sch +:+ "://" +:+ rest /\
    let host := (splitnetloc (Str.remove is_unsafe_url_byte rest)).1 in
    match urlparse root_url with
    | Some parsed =>
        scheme parsed = sch /\ netloc parsed = host /\
        netloc_ok host = true /\ checknetloc host = true
    | None => netloc_ok host = false \/ checknetloc host = false
    end.
Proof.
  unfold check_root_url. destruct (String.eqb root_url ""); [done |].
  destruct (Str.startswith root_url "http://") eqn:Hhttp;
    [|destruct (Str.startswith root_url "https://") eqn:Hhttps; [|done]];
    intros _.
  - apply startswith_spec in Hhttp as [rest ->].
    exists "http", rest. split; [by left |]. split; [done |]. cbv zeta.
    destruct (urlparse ("http://" +:+ rest)) as [parsed|] eqn:Hp.
    + apply urlparse_inv in Hp as (r & Hn & -> & _ & Hck).
      unfold clean_url, split_netloc in *. simpl in *.
      destruct (splitnetloc _) as [n r'] eqn:Hs. simpl.
      destruct (netloc_ok n); [|done]. injection Hn as -> _.
      by split_and!.
    + apply urlparse_None in Hp.
      unfold clean_url, split_netloc in *. simpl in *.
      destruct (splitnetloc _) as [n r'] eqn:Hs. simpl.
      destruct (netloc_ok n); [by right | by left].
  - apply startswith_spec in Hhttps as [rest ->].
    exists "https", rest. split; [by right |]. split; [done |]. cbv zeta.
    destruct (urlparse ("https://" +:+ rest)) as [parsed|] eqn:Hp.
    + apply urlparse_inv in Hp as (r & Hn & -> & _ & Hck).
      unfold clean_url, split_netloc in *. simpl in *.
      destruct (splitnetloc _) as [n r'] eqn:Hs. simpl.
      destruct (netloc_ok n); [|done]. injection Hn as -> _.
      by split_and!.
    + apply urlparse_None in Hp.
      unfold clean_url, split_netloc in *. simpl in *.
      destruct (splitnetloc _) as [n r'] eqn:Hs. simpl.
      destruct (netloc_ok n); [by right | by left].
Qed.

End MoreApplication.

(** ** More on the classifier *)

Section MoreClassifier.

Context `{W : !World}.
Import StrFacts.

Lemma length_lower (s : string) : String.length (Str.lower s) = String.length s.
Proof. induction s as [|c s IH]; simpl; [done | by rewrite IH]. Qed.

Lemma length_append (a b : string) :
  String.length (a +:+ b) = String.length a + String.length b.
Proof. induction a as [|c a IH]; simpl; [done | by rewrite IH]. Qed.

(** Lower-casing makes a dot of a dot only. *)
Lemma char_lower_dot (c : ascii) :
  Ascii.eqb "." (Str.char_lower c) = Ascii.eqb "." c.
Proof. by destruct c as [[] [] [] [] [] [] [] []]. Qed.

Lemma has_dot_lower (s : string) :
  Str.has_char (Ascii.eqb ".") (Str.lower s) = Str.has_char (Ascii.eqb ".") s.
Proof.
  induction s as [|c s IH]; cbn [Str.lower Str.has_char]; [done |].
  by rewrite char_lower_dot, IH.
Qed.

(** X14. [should_skip_url] looks at the path alone and wants an extension
    there: a URL is skipped only if its path has a dot and at least four
    characters, so a URL with an empty path is never skipped, whatever its
    host. *)
Theorem skipped_path_has_extension url :
  should_skip_url url = Some true ->
  exists parsed,
    urlparse url = Some parsed /\
    4 <= String.length (path parsed) /\
    Str.has_char (Ascii.eqb ".") (path parsed) = true.
Proof.
  unfold should_skip_url.
  destruct (urlparse url) as [parsed|]; cbn [mbind option_bind]; [|done].
  intros Hex. apply (inj Some) in Hex.
  apply existsb_exists in Hex as (ext & Hin & Hend).
  apply endswith_spec in Hend as [a Ha].
  exists parsed. split; [done |].
  rewrite <- length_lower, <- has_dot_lower, Ha, length_append, has_char_app.
  unfold SKIP_EXTENSIONS in Hin. simpl in Hin.
  repeat (destruct Hin as [<- | Hin];
          [simpl; split; [lia | by rewrite orb_true_r] |]).
  done.
Qed.

(** [c in s] for a one-character string is [Str.has_char]. *)
Lemma contains_char (s : string) (c : ascii) :
  Str.contains s (String c "") = Str.has_char (Ascii.eqb c) s.
Proof.
  induction s as [|b s IH]; simpl; [done |].
  by rewrite andb_true_r, IH.
Qed.

Lemma split_scheme_free q (v : string) :
  Str.has_char q v = false -> Str.has_char q (split_scheme v).2 = false.
Proof.
  intros Hv. unfold split_scheme.
  destruct (Str.partition ":" v) as [[[|c0 pre] b]|] eqn:Hp; simpl; try done.
  destruct (Str.is_alpha c0 && _); simpl; [|done].
  apply partition_Some in Hp as [-> _].
  rewrite has_char_app in Hv. apply orb_false_elim in Hv as [_ Hb].
  simpl in Hb. by apply orb_false_elim in Hb as [_ ?].
Qed.

Lemma split_netloc_free q (v n r : string) :
  split_netloc v = Some (n, r) ->
  Str.has_char q v = false -> Str.has_char q r = false.
Proof.
  unfold split_netloc. destruct v as [|a [|b v]]; try (by intros [= <- <-]).
  destruct (Ascii.eqb a "/" && Ascii.eqb b "/"); [|by intros [= <- <-]].
  unfold splitnetloc.
  pose proof (break_app_eq (Str.one_of "/?#") v) as Heq.
  destruct (Str.break (Str.one_of "/?#") v) as [n' r']. simpl in Heq.
  destruct (netloc_ok n'); [|done]. intros [= <- <-] Hv.
  simpl in Hv. apply orb_false_elim in Hv as [_ [_ Hv]%orb_false_elim].
  rewrite <- Heq, has_char_app in Hv. by apply orb_false_elim in Hv as [_ ?].
Qed.

(** X15. The character test of [is_valid_landing_page] is stronger than a test
    on the parsed fragment: a URL that it accepts has an empty fragment. *)
Theorem valid_landing_page_has_no_fragment url parsed :
  is_valid_landing_page url = true ->
  urlparse url = Some parsed ->
  fragment parsed = "".
Proof.
  unfold is_valid_landing_page.
  destruct (Str.contains url "#") eqn:Hhash; [done |]. intros _ Hp.
  rewrite contains_char in Hhash.
  apply urlparse_inv in Hp as (rest & Hn & _ & -> & _).
  assert (Str.has_char (Ascii.eqb "#") rest = false) as Hrest.
  { apply (split_netloc_free _ _ _ _ Hn), split_scheme_free.
    by apply has_char_remove, has_char_lstrip. }
  unfold split_fragment. by rewrite (partition_free "#" rest Hrest).
Qed.

End MoreClassifier.

(** ** The handler of the button *)

Section MoreHandler.

Context `{W : !World}.
Import StrFacts.

(** X16. What the table of "Start Crawling" shows: when the handler displays
    a table, the root URL was accepted and the crawl ended with an empty
    frontier; the table is not empty and holds, in their order, the records
    of [external_links] whose link contains the keyword, next to a success
    message that counts all the records; and each row holds a link that
    starts with [http] and has a host other than the root's, found on a page
    that this crawl visited. *)
Theorem table_rows_are_matches pop fuel root_url keyword_filter visited links
    shown visited' links' rows :
  pop_choice pop ->
  start_crawling pop fuel root_url keyword_filter visited links
  = Some (shown, (visited', links')) ->
  LinksTable rows ∈ shown ->
  check_root_url root_url = Accepted /\
  (exists s,
     reachable root_url ∅ [] (Running s) /\ urls_to_visit s = ∅ /\
     visited' = visited_urls s /\ links' = external_links s) /\
  rows <> [] /\
  rows = filtered_links keyword_filter links' /\
  FoundSuccess (length links') ∈ shown /\
  Forall (fun row =>
            (exists a b, row.1 = a +:+ keyword_filter +:+ b) /\
            Str.startswith row.1 "http" = true /\
            external_host root_url row /\
            row.2 ∈ visited')
    rows.
Proof.
  intros Hpop. unfold start_crawling.
  destruct (check_root_url root_url);
    [by intros [= <- _ _] [=]%list_elem_of_singleton
    | by intros [= <- _ _] [=]%list_elem_of_singleton |].
  unfold crawl_website.
  destruct (while_loop pop fuel root_url _) as [r|] eqn:Hloop;
    cbn [mbind option_bind]; [|done].
  apply (while_loop_sound root_url pop fuel) in Hloop as [Hr Hfin]; [|done].
  fold (reachable root_url ∅ [] r) in Hr.
  intros [= <- <- <-] Hshown.
  apply elem_of_cons in Hshown as [[=] | Hshown].
  destruct r as [s | s]; [|by apply list_elem_of_singleton in Hshown].
  simpl in Hfin. simpl.
  pose proof (reachable_external_links _ _ _ _ Hr) as Hlinks.
  destruct (reachable_requests _ _ _ _ Hr) as [Hvisited _].
  simpl in Hlinks, Hvisited.
  destruct (external_links s) as [|record records] eqn:He;
    [by apply list_elem_of_singleton in Hshown |].
  apply elem_of_cons in Hshown as [[=] | Hshown].
  destruct (filtered_links keyword_filter (record :: records))
    as [|row rows'] eqn:Hrows;
    apply list_elem_of_singleton in Hshown; [done |].
  injection Hshown as ->.
  split; [done |]. split; [by exists s |]. split; [done |].
  split; [done |]. split; [by right; left |].
  rewrite <- Hrows. apply Forall_forall. intros [link source] Hrow.
  unfold filtered_links in Hrow.
  apply list_elem_of_In, filter_In in Hrow as [Hin Hkey].
  apply contains_spec in Hkey. split; [done |].
  apply list_elem_of_In in Hin. rewrite Hlinks in Hin. simpl in Hin.
  apply list_elem_of_join in Hin as (page & Hin & Hpage).
  apply list_elem_of_fmap in Hpage as (u & -> & Hu).
  pose proof (records_of_inv root_url u) as Hinv.
  rewrite Forall_forall in Hinv.
  destruct (Hinv _ Hin) as (Hsrc & Hhttp & _ & Hext). simpl in Hsrc.
  subst source. auto.
Qed.

End MoreHandler.

(** ** The further properties at work on the small site *)

Module TourFacts.

Import Demo DemoFacts Tour.

Lemma r4_running : r4 = Running (state_of r4).
Proof. vm_compute. reflexivity. Qed.

Lemma step4 : @step site seed r3 r4.
Proof. rewrite r3_running at 1. constructor. vm_compute. reflexivity. Qed.

Lemma reach4 : @reachable site seed ∅ [] (Running (state_of r4)).
Proof.
  rewrite <- r4_running. eapply rtc_r; [exact reach3 | exact step4].
Qed.

Lemma r4_done : urls_to_visit (state_of r4) = ∅.
Proof. vm_compute. reflexivity. Qed.

Lemma t2_running : t2 = Running (state_of t2).
Proof. vm_compute. reflexivity. Qed.

Lemma t3_running : t3 = Running (state_of t3).
Proof. vm_compute. reflexivity. Qed.

Lemma tour2 : @step site seed r1 t2.
Proof. rewrite r1_running at 1. constructor. vm_compute. reflexivity. Qed.

Lemma tour3 : @step site seed t2 t3.
Proof. rewrite t2_running at 1. constructor. vm_compute. reflexivity. Qed.

Lemma tour4 : @step site seed t3 t4.
Proof. rewrite t3_running at 1. constructor. vm_compute. reflexivity. Qed.

Lemma reach_t4 : @reachable site seed ∅ [] t4.
Proof.
  eapply rtc_r; [|exact tour4]. eapply rtc_r; [|exact tour3].
  eapply rtc_r; [exact reach1 | exact tour2].
Qed.

Lemma t4_finished : @finished t4.
Proof. vm_compute. reflexivity. Qed.

Lemma reach3_running' : @reachable site seed ∅ [] (Running (state_of r3)).
Proof. rewrite <- r3_running. exact reach3. Qed.

End TourFacts.

Module ExtraWitness.

Import Demo DemoFacts Tour TourFacts.

Lemma discovered_never_forgotten_witness :
  rtc (@step site seed) r1 r3 /\
  visited_urls (state_of r1) ⊆ visited_urls (state_of r3) /\
  visited_urls (state_of r1) ∪ urls_to_visit (state_of r1)
  ⊆ visited_urls (state_of r3) ∪ urls_to_visit (state_of r3).
Proof.
  assert (rtc (@step site seed) r1 r3) as Hrun
    by (eapply rtc_l; [exact step2 | apply rtc_once; exact step3]).
  split; [exact Hrun |].
  exact (@discovered_never_forgotten site seed r1 r3 Hrun).
Defined.

Lemma external_links_by_page_witness :
  @reachable site seed ∅ [] r3 /\
  external_links (state_of r3)
  = [] ++ mjoin (@records_of site seed <$> requests (trace (state_of r3))).
Proof.
  split; [exact reach3 |].
  exact (proj1 (@external_links_by_page site seed ∅ [] r3 reach3)).
Defined.

Lemma visited_are_requested_once_witness :
  @reachable site seed ∅ [] r3 /\
  NoDup (requests (trace (state_of r3))) /\
  visited_urls (state_of r3) = list_to_set (requests (trace (state_of r3))) /\
  length (requests (trace (state_of r3))) = size (visited_urls (state_of r3)).
Proof.
  split; [exact reach3 |].
  exact (@visited_are_requested_once site seed [] r3 reach3).
Defined.

Lemma one_sleep_per_page_witness :
  @reachable site seed ∅ [] (Running (state_of r3)) /\
  sleeps (trace (state_of r3)) = size (visited_urls (state_of r3)).
Proof.
  split; [exact reach3_running' |].
  exact (@one_sleep_per_page site seed [] (Running (state_of r3))
           reach3_running').
Defined.

Lemma crawl_visits_reachable_pages_witness :
  @reachable site seed ∅ [] (Running (state_of r4)) /\
  urls_to_visit (state_of r4) = ∅ /\
  forall x,
    x ∈ visited_urls (state_of r4) <-> rtc (@links_to site seed) seed x.
Proof.
  split; [exact reach4 |]. split; [exact r4_done |].
  exact (proj2 (@crawl_visits_reachable_pages site seed []
                  (Running (state_of r4)) reach4)
           (state_of r4) eq_refl r4_done).
Defined.

Lemma crawl_result_order_independent_witness :
  @reachable site seed ∅ [] (Running (state_of r4)) /\
  urls_to_visit (state_of r4) = ∅ /\
  @reachable site seed ∅ [] t4 /\
  finished t4 /\
  exists s2,
    t4 = Running s2 /\
    visited_urls s2 = visited_urls (state_of r4) /\
    external_links s2 ≡ₚ external_links (state_of r4).
Proof.
  split; [exact reach4 |]. split; [exact r4_done |].
  split; [exact reach_t4 |]. split; [exact t4_finished |].
  exact (@crawl_result_order_independent site seed [] (state_of r4) t4
           reach4 r4_done reach_t4 t4_finished).
Defined.

Lemma requests_stay_on_site_witness :
  @reachable site seed ∅ [] r3 /\
  forall x,
    x ∈ requests (trace (state_of r3)) \/ x ∈ urls_to_visit (state_of r3) ->
    x = seed \/ @passes_filters site x /\ @internal_host site seed x.
Proof.
  split; [exact reach3 |].
  exact (@requests_stay_on_site site seed ∅ [] r3 reach3).
Defined.

Lemma records_come_from_visited_pages_witness :
  @reachable site seed ∅ [] r1 /\
  exists appended,
    external_links (state_of r1) = [] ++ appended /\
    Forall (fun record =>
              record.2 ∈ visited_urls (state_of r1) /\
              record.2 ∈ requests (trace (state_of r1)) /\
              Str.startswith record.1 "http" = true /\
              @should_skip_url site record.1 = Some false /\
              is_valid_landing_page record.1 = true)
      appended.
Proof.
  split; [exact reach1 |].
  exact (@records_come_from_visited_pages site seed ∅ [] r1 reach1).
Defined.

Lemma progress_within_bounds_witness :
  @reachable site seed ∅ [] r3 /\
  Forall (fun q => (0 < q)%Q /\ (q <= 1)%Q) (reports (trace (state_of r3))).
Proof.
  split; [exact reach3 |].
  exact (@progress_within_bounds site seed [] r3 reach3).
Defined.

Lemma completed_crawl_reports_all_witness :
  @reachable site seed ∅ [] (Running (state_of r4)) /\
  urls_to_visit (state_of r4) = ∅ /\
  (exists q, last (reports (trace (state_of r4))) = Some q /\ (q == 1)%Q) /\
  total_urls_discovered (state_of r4) = size (visited_urls (state_of r4)).
Proof.
  split; [exact reach4 |]. split; [exact r4_done |].
  exact (@completed_crawl_reports_all site seed [] (state_of r4)
           reach4 r4_done).
Defined.

Lemma keyword_filter_refines_witness :
  Str.contains "https://b.com" "b.com" = true /\
  filtered_links "https://b.com" (filtered_links "b.com" rows)
  = filtered_links "https://b.com" rows.
Proof.
  split; [reflexivity |].
  exact (keyword_filter_refines "b.com" "https://b.com" rows eq_refl).
Defined.

Lemma keyword_filter_spec_witness :
  matches `sublist_of` rows /\
  Forall (fun record : string * string =>
            exists a b, record.1 = a +:+ "b.com" +:+ b) matches /\
  matches `sublist_of` filtered_links "b.com" rows.
Proof.
  assert (matches `sublist_of` rows) as Hsub
    by (apply sublist_skip, sublist_cons, sublist_skip, sublist_nil).
  assert (Forall (fun record : string * string =>
                    exists a b, record.1 = a +:+ "b.com" +:+ b) matches)
    as Hall.
  { repeat constructor.
    - exists "https://", "/x". reflexivity.
    - exists "https://", "/y". reflexivity. }
  split; [exact Hsub |]. split; [exact Hall |].
  exact (proj1 (proj2 (proj2 (keyword_filter_spec "b.com" rows)))
           _ Hsub Hall).
Defined.

Lemma accepted_root_parses_witness :
  check_root_url "https://a.com/start" = Accepted /\
  exists sch rest,
    (sch = "http" \/ sch = "https") /\
    "https://a.com/start" = sch +:+ "://" +:+ rest /\
    let host := (splitnetloc (Str.remove is_unsafe_url_byte rest)).1 in
    match @urlparse site "https://a.com/start" with
    | Some parsed =>
        scheme parsed = sch /\ netloc parsed = host /\
        @netloc_ok site host = true /\ @checknetloc site host = true
    | None => @netloc_ok site host = false \/ @checknetloc site host = false
    end.
Proof.
  split; [reflexivity |].
  exact (@accepted_root_parses site "https://a.com/start" eq_refl).
Defined.

Lemma skipped_path_has_extension_witness :
  @should_skip_url site "https://x.com/a.PDF" = Some true /\
  exists parsed,
    @urlparse site "https://x.com/a.PDF" = Some parsed /\
    4 <= String.length (path parsed) /\
    Str.has_char (Ascii.eqb ".") (path parsed) = true.
Proof.
  split; [reflexivity |].
  exact (@skipped_path_has_extension site "https://x.com/a.PDF" eq_refl).
Defined.

Lemma valid_landing_page_has_no_fragment_witness :
  is_valid_landing_page "https://x.com/a?b=1" = true /\
  @urlparse site "https://x.com/a?b=1"
  = Some {| scheme := "https"; netloc := "x.com"; path := "/a";
            params := ""; query := "b=1"; fragment := "" |} /\
  fragment {| scheme := "https"; netloc := "x.com"; path := "/a";
              params := ""; query := "b=1"; fragment := "" |} = "".
Proof.
  split; [reflexivity |]. split; [reflexivity |].
  exact (@valid_landing_page_has_no_fragment site "https://x.com/a?b=1"
           _ eq_refl eq_refl).
Defined.

Lemma table_rows_are_matches_witness :
  pop_choice pop_first /\
  @start_crawling site pop_first 4 seed "b.com" ∅ []
  = Some (shown, (universe, table)) /\
  LinksTable table ∈ shown /\
  table = filtered_links "b.com" table /\
  Forall (fun row => @external_host site seed row /\ row.2 ∈ universe) table.
Proof.
  assert (@start_crawling site pop_first 4 seed "b.com" ∅ []
          = Some (shown, (universe, table))) as Hrun
    by (vm_compute; reflexivity).
  assert (LinksTable table ∈ shown) as Hshown by (by right; right; left).
  destruct (@table_rows_are_matches site pop_first 4 seed "b.com" ∅ []
              shown universe table table pop_first_choice Hrun Hshown)
    as (_ & _ & _ & Hrows & _ & Hall).
  split; [exact pop_first_choice |]. split; [exact Hrun |].
  split; [exact Hshown |]. split; [exact Hrows |].
  refine (Forall_impl _ _ _ Hall _).
  intros row (_ & _ & Hext & Hsrc). split; [exact Hext | exact Hsrc].
Defined.

End ExtraWitness.
